(** * Key expressions of neovim_prompt: resolution and the parse cache

    A verification development for [src/neovim_prompt/key.py].  The module
    turns a key expression (an [int], a [bytes] or a [str] such as
    ["<C-a>"]) into a [Key] and memoises the result per expression.

    Python values are embedded as follows: an [int] is a [Z], a [bytes] is a
    [list byte], a [str] is a [string], a [dict] is a [gmap], an exception is
    a constructor of [exn] carried by [result], and the depth of the Python
    call stack is a natural number that every call decrements. *)

From Stdlib Require Import ssreflect ZArith NArith Bool Lia.
From Stdlib.Strings Require Import String Ascii Byte.
From stdpp Require Import base option countable list strings gmap.

#[local] Set Warnings "-rewrite-rw".
#[local] Open Scope string_scope.

(** ** Byte strings *)

Abbreviation bytes := (list byte).

(** A [bytes] literal with printable content, [b'...']. *)
Definition B (s : string) : bytes := list_byte_of_string s.

(** [ord(b)] of a single byte, and [b[i]] as Python's indexing gives it. *)
Definition ord (c : byte) : Z := Z.of_N (Byte.to_N c).

(** One byte of [bytes.upper()]: the ASCII letters [a]..[z] lose 32. *)
Definition byte_upper (c : byte) : byte :=
  let n := Byte.to_N c in
  if ((97 <=? n) && (n <=? 122))%N
  then match Byte.of_N (n - 32) with Some u => u | None => c end
  else c.

(** [bytes.upper()]. *)
Definition upper (b : bytes) : bytes := map byte_upper b.

(** [b.startswith(prefix)]. *)
Fixpoint startswith (b prefix : bytes) : bool :=
  match prefix, b with
  | [], _ => true
  | p :: ps, x :: xs => Byte.eqb x p && startswith xs ps
  | _ :: _, [] => false
  end.

(** [b.endswith(suffix)]. *)
Definition endswith (b suffix : bytes) : bool :=
  startswith (rev b) (rev suffix).

(** The slice [b[1:-1]]. *)
Definition slice_1_m1 (b : bytes) : bytes := removelast (tail b).

(** The slice [b[2:]]. *)
Definition slice_2 (b : bytes) : bytes := drop 2 b.

(** [c in s] for an [int] [c] and a [bytes] [s]. *)
Definition byte_in (c : byte) (s : bytes) : bool := existsb (Byte.eqb c) s.

#[global] Instance byte_eq_dec : EqDecision byte := Byte.byte_eq_dec.

#[global] Instance byte_countable : Countable byte :=
  inj_countable Byte.to_N Byte.of_N Byte.of_to_N.

(** ** Key codes and key expressions *)

(** [KeyCode = Union[int, bytes]]. *)
Inductive KeyCode : Type :=
| CInt (n : Z)
| CBytes (b : bytes).

(** [KeyExpr = Union[KeyCode, str]]; [EOther] stands for a value of any
    other type, named by its type. *)
Inductive KeyExpr : Type :=
| EInt (n : Z)
| EBytes (b : bytes)
| EStr (s : string)
| EOther (tyname : string).

#[global] Instance KeyCode_eq_dec : EqDecision KeyCode.
Proof. solve_decision. Defined.

#[global] Instance KeyExpr_eq_dec : EqDecision KeyExpr.
Proof. solve_decision. Defined.

#[global] Instance KeyCode_inhabited : Inhabited KeyCode := populate (CInt 0).

#[global] Instance KeyExpr_countable : Countable KeyExpr.
Proof.
  refine (inj_countable'
    (λ e, match e with
          | EInt n => inl n
          | EBytes b => inr (inl b)
          | EStr s => inr (inr (inl s))
          | EOther t => inr (inr (inr t))
          end)
    (λ x, match x with
          | inl n => EInt n
          | inr (inl b) => EBytes b
          | inr (inr (inl s)) => EStr s
          | inr (inr (inr t)) => EOther t
          end) _).
  by intros [].
Defined.

(** A code fed back as an expression. *)
Definition expr_of_code (c : KeyCode) : KeyExpr :=
  match c with
  | CInt n => EInt n
  | CBytes b => EBytes b
  end.

(** ** Outcomes of a call *)

Inductive exn : Type :=
| AttributeError
| KeyError
| TypeError
| IndexError.

Inductive result (A : Type) : Type :=
| Ok (a : A)
| Raise (e : exn).
Arguments Ok {A} a.
Arguments Raise {A} e.

(** A computation either exhausts the call depth it was given ([None]) or
    ends with a value or an exception. *)
Definition M (A : Type) : Type := option (result A).

Definition ret {A} (a : A) : M A := Some (Ok a).
Definition raise {A} (e : exn) : M A := Some (Raise e).
Definition bind {A B} (m : M A) (k : A → M B) : M B :=
  match m with
  | Some (Ok a) => k a
  | Some (Raise e) => Some (Raise e)
  | None => None
  end.

Notation "'call' x <- m ; k" := (bind m (λ x, k))
  (at level 10, x name, m at level 100, k at level 200).

(** ** The tables of the module *)

Definition CTRL_KEY : bytes := [x80; xfc; x04].
Definition META_KEY : bytes := [x80; xfc; x08].

(** [curses.ascii.controlnames] of the Python standard library. *)
Definition controlnames : list string :=
  [ "NUL"; "SOH"; "STX"; "ETX"; "EOT"; "ENQ"; "ACK"; "BEL";
    "BS";  "HT";  "LF";  "VT";  "FF";  "CR";  "SO";  "SI";
    "DLE"; "DC1"; "DC2"; "DC3"; "DC4"; "NAK"; "SYN"; "ETB";
    "CAN"; "EM";  "SUB"; "ESC"; "FS";  "GS";  "RS";  "US";
    "SP" ].

(** The integer constants of [curses.ascii], what [getattr(ascii, k)]
    reads. *)
Definition ascii_attrs : list (string * Z) :=
  [ ("NUL", 0); ("SOH", 1); ("STX", 2); ("ETX", 3); ("EOT", 4); ("ENQ", 5);
    ("ACK", 6); ("BEL", 7); ("BS", 8); ("TAB", 9); ("HT", 9); ("LF", 10);
    ("NL", 10); ("VT", 11); ("FF", 12); ("CR", 13); ("SO", 14); ("SI", 15);
    ("DLE", 16); ("DC1", 17); ("DC2", 18); ("DC3", 19); ("DC4", 20);
    ("NAK", 21); ("SYN", 22); ("ETB", 23); ("CAN", 24); ("EM", 25);
    ("SUB", 26); ("ESC", 27); ("FS", 28); ("GS", 29); ("RS", 30); ("US", 31);
    ("SP", 32); ("DEL", 127) ]%Z.

Definition getattr_ascii (k : string) : Z :=
  default 0%Z ((list_to_map ascii_attrs : gmap string Z) !! k).

(** [d.update(dict(k1=v1, ...))]: later entries replace earlier ones. *)
Definition update (d : gmap string KeyCode) (kvs : list (string * KeyCode))
  : gmap string KeyCode :=
  foldl (λ m kv, <[kv.1 := kv.2]> m) d kvs.

(** [{k: getattr(ascii, k) for k in ascii.controlnames}]. *)
Definition SPECIAL_KEYS_control : gmap string KeyCode :=
  update ∅ (map (λ k, (k, CInt (getattr_ascii k))) controlnames).

Definition SPECIAL_KEYS_named : gmap string KeyCode :=
  update SPECIAL_KEYS_control
    [ ("BSLASH", CInt (ord "\"%byte));
      ("LT", CInt (ord "<"%byte));
      ("UP", CBytes (x80 :: B "ku"));
      ("DOWN", CBytes (x80 :: B "kd"));
      ("LEFT", CBytes (x80 :: B "kl"));
      ("RIGHT", CBytes (x80 :: B "kr"));
      ("F1", CBytes (x80 :: B "k1"));
      ("F2", CBytes (x80 :: B "k2"));
      ("F3", CBytes (x80 :: B "k3"));
      ("F4", CBytes (x80 :: B "k4"));
      ("F5", CBytes (x80 :: B "k5"));
      ("F6", CBytes (x80 :: B "k6"));
      ("F7", CBytes (x80 :: B "k7"));
      ("F8", CBytes (x80 :: B "k8"));
      ("F9", CBytes (x80 :: B "k9"));
      ("F10", CBytes (x80 :: B "k;"));
      ("F11", CBytes (x80 :: B "F1"));
      ("F12", CBytes (x80 :: B "F2"));
      ("F13", CBytes (x80 :: B "F3"));
      ("F14", CBytes (x80 :: B "F4"));
      ("F15", CBytes (x80 :: B "F5"));
      ("F16", CBytes (x80 :: B "F6"));
      ("F17", CBytes (x80 :: B "F7"));
      ("F18", CBytes (x80 :: B "F8"));
      ("F19", CBytes (x80 :: B "F9"));
      ("F20", CBytes (x80 :: B "FA"));
      ("F21", CBytes (x80 :: B "FB"));
      ("F22", CBytes (x80 :: B "FC"));
      ("F23", CBytes (x80 :: B "FD"));
      ("F24", CBytes (x80 :: B "FE"));
      ("HELP", CBytes (x80 :: B "%1"));
      ("BACKSPACE", CBytes (x80 :: B "kb"));
      ("INSERT", CBytes (x80 :: B "kI"));
      ("DELETE", CBytes (x80 :: B "kD"));
      ("HOME", CBytes (x80 :: B "kh"));
      ("END", CBytes (x80 :: B "@7"));
      ("PAGEUP", CBytes (x80 :: B "kP"));
      ("PAGEDOWN", CBytes (x80 :: B "kN")) ].

(** The aliases read the dictionary built so far. *)
Definition SPECIAL_KEYS : gmap string KeyCode :=
  update SPECIAL_KEYS_named
    [ ("NOP", SPECIAL_KEYS_named !!! "NUL");
      ("RETURN", SPECIAL_KEYS_named !!! "CR");
      ("ENTER", SPECIAL_KEYS_named !!! "CR");
      ("SPACE", SPECIAL_KEYS_named !!! "SP");
      ("BS", SPECIAL_KEYS_named !!! "BACKSPACE");
      ("INS", SPECIAL_KEYS_named !!! "INSERT");
      ("DEL", SPECIAL_KEYS_named !!! "DELETE") ].

(** The bytes literal of the control shortcut; it has no [J]. *)
Definition ctrl_chars : bytes := B "@ABCDEFGHIKLMNOPQRSTUVWXYZ[\]^_?".

(** [curses.ascii.ctrl(c)] for an [int] [c]. *)
Definition ctrl (c : Z) : Z := Z.land c 31.

(** ** The editor *)

(** Modelled from the spec: the editor gateway of section 6.  [ensure_bytes],
    [ensure_str] and [int2chr] are imported from [neovim_prompt.util], whose
    code lies outside [key.py], and [vars] is [nvim.vars] of the [neovim]
    client: text is encoded and decoded with the editor's encoding,
    an integer code is turned into a one-character text, and a variable is
    a text or is absent. *)
Record Nvim : Type := {
  ensure_bytes : string → bytes;
  ensure_str : bytes → string;
  int2chr : Z → string;
  vars : string → option string
}.

(** [nvim.vars[name]]. *)
Definition getvar (nvim : Nvim) (name : string) : M string :=
  match vars nvim name with
  | Some v => ret v
  | None => raise KeyError
  end.

(** ** Resolution *)

(** [b''.join([prefix, x])]: every item must be a [bytes]. *)
Definition join2 (prefix : bytes) (x : KeyCode) : M KeyCode :=
  match x with
  | CBytes b => ret (CBytes (prefix ++ b))
  | CInt _ => raise TypeError
  end.

(** [_resolve] and [_resolve_from_special_keys] call each other; [fuel]
    bounds the depth of the calls. *)
Fixpoint _resolve (fuel : nat) (nvim : Nvim) (expr : KeyExpr) {struct fuel}
  : M KeyCode :=
  match fuel with
  | O => None
  | S fuel =>
    match expr with
    | EInt n => ret (CInt n)
    | EStr s => _resolve fuel nvim (EBytes (ensure_bytes nvim s))
    | EBytes b =>
      if (length b =? 1)%nat then
        match b with
        | c :: _ => ret (CInt (ord c))
        | [] => raise TypeError
        end
      else if startswith b [x80] then ret (CBytes b)
      else if startswith b (B "<") || endswith b (B ">") then
        let inner := slice_1_m1 b in
        call code <- _resolve_from_special_keys fuel nvim inner;
        if negb (bool_decide (code = CBytes inner)) then ret code
        else ret (CBytes b)
      else ret (CBytes b)
    | EOther _ => raise AttributeError
    end
  end
with _resolve_from_special_keys (fuel : nat) (nvim : Nvim) (inner : bytes)
  {struct fuel} : M KeyCode :=
  match fuel with
  | O => None
  | S fuel =>
    let inner_upper := upper inner in
    let inner_upper_str := ensure_str nvim inner_upper in
    match SPECIAL_KEYS !! inner_upper_str with
    | Some code => ret code
    | None =>
      if startswith inner_upper (B "C-") then
        if (length inner =? 3)%nat
           && from_option (λ cu, byte_in cu ctrl_chars) false (last inner_upper)
        then
          match last inner with
          | Some c => ret (CInt (ctrl (ord c)))
          | None => raise IndexError
          end
        else
          call rest <- _resolve_from_special_keys fuel nvim (slice_2 inner);
          join2 CTRL_KEY rest
      else if startswith inner_upper (B "M-") || startswith inner_upper (B "A-")
      then
        call rest <- _resolve_from_special_keys fuel nvim (slice_2 inner);
        join2 META_KEY rest
      else if bool_decide (inner_upper = B "LEADER") then
        call leader <- getvar nvim "mapleader";
        let leader := ensure_bytes nvim leader in
        _resolve fuel nvim (EBytes leader)
      else if bool_decide (inner_upper = B "LOCALLEADER") then
        call leader <- getvar nvim "maplocalleader";
        let leader := ensure_bytes nvim leader in
        _resolve fuel nvim (EBytes leader)
      else ret (CBytes inner)
    end
  end.

(** ** Keys and the cache *)

(** [Key(code, char)], an immutable named tuple. *)
Record Key : Type := mkKey { code : KeyCode; char : string }.

(** The objects allocated so far, by address, and the class attribute
    [Key.__cached], a dictionary from expressions to addresses. *)
Record State : Type := mkState {
  heap : list Key;
  cached : gmap KeyExpr nat
}.

(** The state at import time. *)
Definition empty_state : State := {| heap := []; cached := ∅ |}.

(** [Key.parse]: the address of the returned instance and the state left. *)
Definition parse (fuel : nat) (nvim : Nvim) (expr : KeyExpr) (st : State)
  : M (nat * State) :=
  call st' <- (if bool_decide (cached st !! expr = None) then
            call code <- _resolve fuel nvim expr;
            let char :=
              match code with
              | CInt n => int2chr nvim n
              | CBytes b =>
                if negb (startswith b [x80]) then ensure_str nvim b else ""
              end in
            let obj := length (heap st) in
            ret {| heap := heap st ++ [mkKey code char];
                   cached := <[expr := obj]> (cached st) |}
          else ret st);
  match cached st' !! expr with
  | Some obj => ret (obj, st')
  | None => raise KeyError
  end.

(** One successful call of [parse] with the editor [nvim]. *)
Inductive step (nvim : Nvim) : State → State → Prop :=
| step_parse fuel expr st obj st' :
    parse fuel nvim expr st = ret (obj, st') → step nvim st st'.

(** One successful call of [parse], with whatever editor. *)
Definition any_step (st st' : State) : Prop := ∃ nvim, step nvim st st'.

(** The states a program reaches when every call names the same editor. *)
Definition reachable (nvim : Nvim) (st : State) : Prop :=
  rtc (step nvim) empty_state st.

(** Section 4.4, step 3 of the specification, in its words: the printable
    form of a code. *)
Definition spec_char (nvim : Nvim) (c : KeyCode) : string :=
  match c with
  | CInt n => int2chr nvim n
  | CBytes b => if startswith b [x80] then "" else ensure_str nvim b
  end.

(** A name that the lookup leaves as it is: not in the table, without a
    modifier prefix, and no leader. *)
Definition unknown_name (nvim : Nvim) (inner : bytes) : Prop :=
  SPECIAL_KEYS !! ensure_str nvim (upper inner) = None
  ∧ startswith (upper inner) (B "C-") = false
  ∧ startswith (upper inner) (B "M-") = false
  ∧ startswith (upper inner) (B "A-") = false
  ∧ upper inner ≠ B "LEADER"
  ∧ upper inner ≠ B "LOCALLEADER".

(** A code that [_resolve] gives back as it is: an integer, or a byte
    sequence behind the marker that is not a single byte. *)
Definition canonical (c : KeyCode) : bool :=
  match c with
  | CInt _ => true
  | CBytes b => startswith b [x80] && negb (length b =? 1)%nat
  end.

(** [m'] ends as [m] does whenever [m] ends. *)
Definition extends {A} (m m' : M A) : Prop := ∀ r, m = Some r → m' = Some r.

(** The state after [parse] has stored a new instance for [e], resolved
    to [c]. *)
Definition stored (nvim : Nvim) (e : KeyExpr) (c : KeyCode) (st : State)
  : State :=
  {| heap := heap st ++ [mkKey c (spec_char nvim c)];
     cached := <[e := length (heap st)]> (cached st) |}.

(** Addresses in the cache point into the heap. *)
Definition wf (st : State) : Prop :=
  ∀ e obj, cached st !! e = Some obj → (obj < length (heap st))%nat.

(** Every cached instance is what [nvim] derives for its expression. *)
Definition coherent (nvim : Nvim) (st : State) : Prop :=
  ∀ e obj, cached st !! e = Some obj →
    ∃ c fuel, _resolve fuel nvim e = ret c
              ∧ heap st !! obj = Some (mkKey c (spec_char nvim c)).

(** ** Editors to run the definitions on *)

(** A Latin-1 editor: one byte per character, and the given leaders. *)
Definition latin1 (mapleader maplocalleader : option string) : Nvim := {|
  ensure_bytes := list_byte_of_string;
  ensure_str := string_of_list_byte;
  int2chr := λ n,
    match Byte.of_N (Z.to_N n) with
    | Some c => string_of_list_byte [c]
    | None => ""
    end;
  vars := λ name,
    if bool_decide (name = "mapleader") then mapleader
    else if bool_decide (name = "maplocalleader") then maplocalleader
    else None
|}.

(** The leader is a backslash, the local leader is not set. *)
Definition nvim0 : Nvim := latin1 (Some "\") None.

(** The leader is itself written in bracket notation. *)
Definition nvim_insert : Nvim := latin1 (Some "<Insert>") None.

(** ** Depth that suffices *)

(** The number of bytes [_resolve] works on. *)
Definition expr_size (nvim : Nvim) (e : KeyExpr) : nat :=
  match e with
  | EBytes b => length b
  | EStr s => S (length (ensure_bytes nvim s))
  | EInt _ | EOther _ => 0
  end.

(** The resolution of each leader that is set ends within depth [f0]. *)
Definition leaders_end (nvim : Nvim) (f0 : nat) : Prop :=
  ∀ var t, var = "mapleader" ∨ var = "maplocalleader" →
    vars nvim var = Some t →
    is_Some (_resolve f0 nvim (EBytes (ensure_bytes nvim t))).

(** The prefixes of a modified key and the marker each one stands for. *)
Definition modifiers : list (string * bytes) :=
  [ ("C-", CTRL_KEY); ("M-", META_KEY); ("A-", META_KEY) ].

(** Every cached address points into the heap, there are as many cached
    expressions as instances, and no instance is shared. *)
Definition one_instance_each (st : State) : Prop :=
  wf st
  ∧ size (cached st) = length (heap st)
  ∧ (∀ e1 e2 obj, cached st !! e1 = Some obj → cached st !! e2 = Some obj →
                  e1 = e2).

(** ** The shape of the table *)

(** What the lookup relies on in an entry: the name is its own upper case,
    has two characters or more and no modifier prefix; the code is an
    ASCII integer or three bytes behind the marker. *)
Definition table_entry_ok (k : string) (c : KeyCode) : bool :=
  bool_decide (upper (B k) = B k)
  && (2 <=? length (B k))%nat
  && negb (startswith (B k) (B "C-"))
  && negb (startswith (B k) (B "M-"))
  && negb (startswith (B k) (B "A-"))
  && match c with
     | CInt n => (0 <=? n)%Z && (n <=? 127)%Z
     | CBytes b => (length b =? 3)%nat && startswith b [x80]
     end.

(** The aliases of the last [update] and the names they copy. *)
Definition aliases : list (string * string) :=
  [ ("NOP", "NUL"); ("RETURN", "CR"); ("ENTER", "CR"); ("SPACE", "SP");
    ("BS", "BACKSPACE"); ("INS", "INSERT"); ("DEL", "DELETE") ].

(** ** The context of a prompt, [src/neovim_prompt/context.py] *)

(** A value held by an attribute or a dictionary: the two kinds that
    [__init__] stores, and any other object, named by its identity. *)
Inductive value : Type :=
| VInt (n : Z)
| VStr (s : string)
| VObj (id : nat).

(** [Context.__slots__]. *)
Definition slots : list string := [ "text"; "caret_locus" ].

(** An instance of [Context]: there is no [__dict__], and each slot holds a
    value or is not set yet. *)
Record Context : Type := mkContext {
  text : option value;
  caret_locus : option value
}.

(** [cls.__new__(cls)]: no slot is set. *)
Definition Context_new : Context := mkContext None None.

(** [Context()]: [__init__] sets both slots. *)
Definition Context_init : Context :=
  mkContext (Some (VStr "")) (Some (VInt 0)).

(** [getattr(self, k)]. *)
Definition getattr (self : Context) (k : string) : M value :=
  let slot :=
    if bool_decide (k = "text") then text self
    else if bool_decide (k = "caret_locus") then caret_locus self
    else None in
  match slot with
  | Some v => ret v
  | None => raise AttributeError
  end.

(** [setattr(context, k, v)]. *)
Definition setattr (context : Context) (k : string) (v : value) : M Context :=
  if bool_decide (k = "text") then
    ret (mkContext (Some v) (caret_locus context))
  else if bool_decide (k = "caret_locus") then
    ret (mkContext (text context) (Some v))
  else raise AttributeError.

(** [Context.to_dict]: the comprehension reads the slots in order. *)
Definition to_dict (self : Context) : M (gmap string value) :=
  foldl (λ acc k,
           call d <- acc;
           call v <- getattr self k;
           ret (<[k := v]> d))
        (ret ∅) slots.

(** [Context.from_dict]: a dictionary with text keys; the loop goes over
    its items, each key once. *)
Definition from_dict (d : gmap string value) : M Context :=
  map_fold (λ k v acc,
              call context <- acc;
              if bool_decide (k ∈ slots) then setattr context k v
              else ret context)
           (ret Context_new) d.

(** * Properties *)

(** ** The examples of the docstring of [Key.parse] *)

Example parse_ord_a :
  (call r <- parse 1 nvim0 (EInt (ord "a"%byte)) empty_state;
   ret (heap r.2 !! r.1))
  = ret (Some (mkKey (CInt 97) "a")).
Proof. by vm_compute. Qed.

Example parse_Insert :
  (call r <- parse 3 nvim0 (EStr "<Insert>") empty_state;
   ret (heap r.2 !! r.1))
  = ret (Some (mkKey (CBytes (x80 :: B "kI")) "")).
Proof. by vm_compute. Qed.

Example resolve_C_Insert :
  _resolve 4 nvim0 (EStr "<C-Insert>")
  = ret (CBytes (CTRL_KEY ++ x80 :: B "kI")).
Proof. by vm_compute. Qed.

Example parse_Leader :
  (call r <- parse 5 nvim0 (EStr "<Leader>") empty_state;
   ret (heap r.2 !! r.1))
  = ret (Some (mkKey (CInt (ord "\"%byte)) "\")).
Proof. by vm_compute. Qed.

Example resolve_LocalLeader_unset :
  _resolve 5 nvim0 (EStr "<LocalLeader>") = raise KeyError.
Proof. by vm_compute. Qed.

(** ** Unfolding one call *)

Lemma _resolve_int fuel nvim n :
  _resolve (S fuel) nvim (EInt n) = ret (CInt n).
Proof. reflexivity. Qed.

Lemma _resolve_str fuel nvim s :
  _resolve (S fuel) nvim (EStr s)
  = _resolve fuel nvim (EBytes (ensure_bytes nvim s)).
Proof. reflexivity. Qed.

Lemma _resolve_other fuel nvim t :
  _resolve (S fuel) nvim (EOther t) = raise AttributeError.
Proof. reflexivity. Qed.

Lemma _resolve_bytes fuel nvim b :
  _resolve (S fuel) nvim (EBytes b)
  = if (length b =? 1)%nat then
      match b with
      | c :: _ => ret (CInt (ord c))
      | [] => raise TypeError
      end
    else if startswith b [x80] then ret (CBytes b)
    else if startswith b (B "<") || endswith b (B ">") then
      call code <- _resolve_from_special_keys fuel nvim (slice_1_m1 b);
      if negb (bool_decide (code = CBytes (slice_1_m1 b))) then ret code
      else ret (CBytes b)
    else ret (CBytes b).
Proof. reflexivity. Qed.

Lemma _resolve_from_special_keys_unfold fuel nvim inner :
  _resolve_from_special_keys (S fuel) nvim inner
  = match SPECIAL_KEYS !! ensure_str nvim (upper inner) with
    | Some code => ret code
    | None =>
      if startswith (upper inner) (B "C-") then
        if (length inner =? 3)%nat
           && from_option (λ cu, byte_in cu ctrl_chars) false
                (last (upper inner))
        then
          match last inner with
          | Some c => ret (CInt (ctrl (ord c)))
          | None => raise IndexError
          end
        else
          call rest <- _resolve_from_special_keys fuel nvim (slice_2 inner);
          join2 CTRL_KEY rest
      else if startswith (upper inner) (B "M-")
              || startswith (upper inner) (B "A-")
      then
        call rest <- _resolve_from_special_keys fuel nvim (slice_2 inner);
        join2 META_KEY rest
      else if bool_decide (upper inner = B "LEADER") then
        call leader <- getvar nvim "mapleader";
        _resolve fuel nvim (EBytes (ensure_bytes nvim leader))
      else if bool_decide (upper inner = B "LOCALLEADER") then
        call leader <- getvar nvim "maplocalleader";
        _resolve fuel nvim (EBytes (ensure_bytes nvim leader))
      else ret (CBytes inner)
    end.
Proof. reflexivity. Qed.

(** ** More depth never changes an outcome *)

Lemma extends_refl {A} (m : M A) : extends m m.
Proof. by intros r. Qed.

Lemma extends_bind {A C} (m m' : M A) (k k' : A → M C) :
  extends m m' → (∀ a, extends (k a) (k' a)) →
  extends (bind m k) (bind m' k').
Proof.
  intros Hm Hk r. unfold bind at 1.
  destruct m as [[a|e]|] eqn:E; [| |done].
  - rewrite (Hm _ eq_refl). apply Hk.
  - rewrite (Hm _ eq_refl). done.
Qed.

Ltac extends_step IHr IHs :=
  first
    [ apply extends_refl
    | apply IHr
    | apply IHs
    | apply extends_bind; [| intros ?]
    | match goal with
      | |- extends (if ?c then _ else _) (if ?c then _ else _) => destruct c
      | |- extends (match ?x with _ => _ end) (match ?x with _ => _ end) =>
          destruct x
      end ].

Lemma resolve_mono_both nvim fuel :
  ∀ fuel', (fuel ≤ fuel')%nat →
    (∀ e, extends (_resolve fuel nvim e) (_resolve fuel' nvim e))
    ∧ (∀ i, extends (_resolve_from_special_keys fuel nvim i)
                    (_resolve_from_special_keys fuel' nvim i)).
Proof.
  induction fuel as [|fuel IH]; intros fuel' Hle.
  - split; intros ? r H; discriminate.
  - destruct fuel' as [|fuel']; [lia|].
    destruct (IH fuel' ltac:(lia)) as [IHr IHs].
    split.
    + intros [n|b|s|t].
      * apply extends_refl.
      * rewrite !_resolve_bytes. repeat extends_step IHr IHs.
      * rewrite !_resolve_str. apply IHr.
      * apply extends_refl.
    + intros i. rewrite !_resolve_from_special_keys_unfold.
      repeat extends_step IHr IHs.
Qed.

Lemma _resolve_mono nvim (fuel fuel' : nat) e r :
  (fuel ≤ fuel')%nat → _resolve fuel nvim e = Some r → _resolve fuel' nvim e = Some r.
Proof. intros Hle. by apply resolve_mono_both. Qed.

Lemma _resolve_from_special_keys_mono nvim (fuel fuel' : nat) i r :
  (fuel ≤ fuel')%nat →
  _resolve_from_special_keys fuel nvim i = Some r →
  _resolve_from_special_keys fuel' nvim i = Some r.
Proof. intros Hle. by apply resolve_mono_both. Qed.

(** Two runs that both end agree, whatever depth each was given. *)
Lemma _resolve_agree nvim fuel1 fuel2 e r1 r2 :
  _resolve fuel1 nvim e = Some r1 → _resolve fuel2 nvim e = Some r2 → r1 = r2.
Proof.
  intros H1 H2.
  apply (_resolve_mono _ _ (fuel1 `max` fuel2)) in H1; [|lia].
  apply (_resolve_mono _ _ (fuel1 `max` fuel2)) in H2; [|lia].
  congruence.
Qed.

(** ** The table *)

Lemma SPECIAL_KEYS_canonical k c :
  SPECIAL_KEYS !! k = Some c → canonical c = true.
Proof.
  revert k c.
  change (map_Forall (λ _ c, canonical c = true) SPECIAL_KEYS).
  refine (bool_decide_unpack _ _). vm_compute. exact I.
Qed.

Lemma SPECIAL_KEYS_names_plain k c :
  SPECIAL_KEYS !! k = Some c → startswith (B k) [x80] = false.
Proof.
  revert k c.
  change (map_Forall (λ k _, startswith (B k) [x80] = false) SPECIAL_KEYS).
  refine (bool_decide_unpack _ _). vm_compute. exact I.
Qed.

(** ** Bytes *)

Lemma byte_eqb_eq (x y : byte) : Byte.eqb x y = true ↔ x = y.
Proof. split; [apply Byte.byte_dec_bl | apply Byte.byte_dec_lb]. Qed.

Lemma byte_eqb_neq (x y : byte) : Byte.eqb x y = false ↔ x ≠ y.
Proof.
  rewrite <- byte_eqb_eq. destruct (Byte.eqb x y); split; congruence.
Qed.

Lemma slice_1_m1_middle (a z : byte) (m : bytes) :
  slice_1_m1 (a :: m ++ [z]) = m.
Proof. unfold slice_1_m1. simpl. apply removelast_last. Qed.

Lemma startswith_cons1 (a p : byte) (m : bytes) :
  startswith (a :: m) [p] = Byte.eqb a p.
Proof. simpl. destruct m; apply andb_true_r. Qed.

Lemma endswith_snoc1 (a z p : byte) (m : bytes) :
  endswith (a :: m ++ [z]) [p] = Byte.eqb z p.
Proof.
  unfold endswith. simpl rev at 2.
  change (a :: m ++ [z]) with ([a] ++ m ++ [z])%list.
  rewrite !rev_app_distr. simpl. destruct (rev m ++ [a])%list; apply andb_true_r.
Qed.

Lemma length_middle_not_1 (a z : byte) (m : bytes) :
  (length (a :: m ++ [z]) =? 1)%nat = false.
Proof. apply Nat.eqb_neq. rewrite /= length_app /=. lia. Qed.

(** ** Byte sequences behind the marker *)

(** C4, as amended: a byte sequence that begins with the marker 0x80 and is
    not a single byte is returned by [_resolve] unchanged. *)
Theorem resolve_marker_unchanged nvim fuel (b : bytes) :
  startswith b [x80] = true → length b ≠ 1%nat →
  _resolve (S fuel) nvim (EBytes b) = ret (CBytes b).
Proof.
  intros Hm Hlen. rewrite _resolve_bytes.
  apply Nat.eqb_neq in Hlen. by rewrite Hlen Hm.
Qed.

Lemma resolve_marker_unchanged_witness :
  _resolve 1 nvim0 (EBytes (x80 :: B "kI")) = ret (CBytes (x80 :: B "kI")).
Proof.
  apply (resolve_marker_unchanged nvim0 0 (x80 :: B "kI")).
  - reflexivity.
  - simpl. lia.
Defined.

(** C4, as stated, fails on the single byte 0x80: the length test comes
    first, and the answer is the integer 128, at every depth. *)
Lemma resolve_single_marker_is_ordinal :
  _resolve 1 nvim0 (EBytes [x80]) = ret (CInt 128)
  ∧ ¬ ∃ fuel, _resolve fuel nvim0 (EBytes [x80]) = ret (CBytes [x80]).
Proof.
  split; [reflexivity|].
  intros [[|fuel] H]; [discriminate|].
  rewrite _resolve_bytes in H. vm_compute in H. discriminate.
Qed.

(** ** Bracket stripping *)

(** The bracket rule on a sequence of at least two bytes that is not behind
    the marker. *)
Lemma _resolve_brackets nvim fuel (a z : byte) (m : bytes) :
  a ≠ x80 → a = "<"%byte ∨ z = ">"%byte →
  _resolve (S fuel) nvim (EBytes (a :: m ++ [z]))
  = call code <- _resolve_from_special_keys fuel nvim m;
    if bool_decide (code = CBytes m) then ret (CBytes (a :: m ++ [z]))
    else ret code.
Proof.
  intros Ha Hbr.
  rewrite _resolve_bytes length_middle_not_1 slice_1_m1_middle.
  rewrite startswith_cons1. apply byte_eqb_neq in Ha. rewrite Ha.
  change (B "<") with ["<"%byte]. change (B ">") with [">"%byte].
  rewrite startswith_cons1 endswith_snoc1.
  replace (Byte.eqb a "<" || Byte.eqb z ">") with true.
  - unfold bind. destruct (_resolve_from_special_keys fuel nvim m) as [[c|]|];
      try done.
    by destruct (bool_decide (c = CBytes m)).
  - symmetry. apply orb_true_iff.
    destruct Hbr as [->| ->]; [left|right]; by apply byte_eqb_eq.
Qed.

(** C10, as amended: for a byte sequence [a :: m ++ [z]] that does not begin
    with the marker 0x80 and has [a] equal to [<] or [z] equal to [>], the
    name looked up is [m], the sequence without its first and its last byte,
    whatever those bytes are; the answer is the looked-up code unless that
    is [m] itself, and the whole sequence otherwise. *)
Theorem bracket_strip_both_ends nvim fuel (a z : byte) (m : bytes) :
  a ≠ x80 → a = "<"%byte ∨ z = ">"%byte →
  slice_1_m1 (a :: m ++ [z]) = m
  ∧ _resolve (S fuel) nvim (EBytes (a :: m ++ [z]))
    = call code <- _resolve_from_special_keys fuel nvim m;
      if bool_decide (code = CBytes m) then ret (CBytes (a :: m ++ [z]))
      else ret code.
Proof.
  intros Ha Hbr. split; [apply slice_1_m1_middle|].
  by apply _resolve_brackets.
Qed.

Lemma bracket_strip_both_ends_witness :
  slice_1_m1 (B "ab>") = B "b"
  ∧ _resolve 2 nvim0 (EBytes (B "ab>"))
    = call code <- _resolve_from_special_keys 1 nvim0 (B "b");
      if bool_decide (code = CBytes (B "b")) then ret (CBytes (B "ab>"))
      else ret code.
Proof.
  apply (bracket_strip_both_ends nvim0 1 "a"%byte ">"%byte (B "b")).
  - discriminate.
  - right. reflexivity.
Defined.

(** C10, as stated, fails on [b'\x80CR>']: it has four bytes and ends with
    [>], the name [CR] between its ends is in the table with code 13, yet
    the marker test comes first and 13 is never the answer. *)
Lemma marker_blocks_bracket_strip :
  endswith (x80 :: B "CR>") (B ">") = true
  ∧ _resolve_from_special_keys 1 nvim0 (slice_1_m1 (x80 :: B "CR>"))
    = ret (CInt 13)
  ∧ _resolve 2 nvim0 (EBytes (x80 :: B "CR>")) = ret (CBytes (x80 :: B "CR>"))
  ∧ ¬ ∃ fuel, _resolve fuel nvim0 (EBytes (x80 :: B "CR>")) = ret (CInt 13).
Proof.
  split; [reflexivity|]. split; [by vm_compute|]. split; [by vm_compute|].
  intros [[|fuel] H]; [discriminate|].
  rewrite _resolve_bytes in H. vm_compute in H. discriminate.
Qed.

(** ** Leaders *)

(** C3, as amended: when the name is [LEADER] or [LOCALLEADER] in any letter
    case, the text of the editor variable is encoded and handed to the
    top-level [_resolve] like any byte sequence, so it goes through the
    single-byte, marker and bracket rules; an absent variable is the
    editor's failure. *)
Theorem leader_goes_through_resolve nvim fuel (inner : bytes) name var :
  (name = "LEADER" ∧ var = "mapleader")
  ∨ (name = "LOCALLEADER" ∧ var = "maplocalleader") →
  upper inner = B name →
  ensure_str nvim (B name) = name →
  _resolve_from_special_keys (S fuel) nvim inner
  = call leader <- getvar nvim var;
    _resolve fuel nvim (EBytes (ensure_bytes nvim leader)).
Proof.
  intros Hname Hup Hdec.
  rewrite _resolve_from_special_keys_unfold Hup Hdec.
  by destruct Hname as [[-> ->]|[-> ->]].
Qed.

Lemma leader_goes_through_resolve_witness :
  _resolve_from_special_keys 2 nvim0 (B "Leader")
  = call leader <- getvar nvim0 "mapleader";
    _resolve 1 nvim0 (EBytes (ensure_bytes nvim0 leader)).
Proof.
  apply (leader_goes_through_resolve nvim0 1 (B "Leader") "LEADER" "mapleader").
  - left. split; reflexivity.
  - reflexivity.
  - reflexivity.
Defined.

(** C3, as stated, fails when the leader is the text [<Insert>]: the answer
    is the code of the Insert key, not the encoded text, at every depth. *)
Lemma leader_in_bracket_notation_is_resolved :
  vars nvim_insert "mapleader" = Some "<Insert>"
  ∧ _resolve_from_special_keys 3 nvim_insert (B "Leader")
    = ret (CBytes (x80 :: B "kI"))
  ∧ ¬ ∃ fuel, _resolve_from_special_keys fuel nvim_insert (B "Leader")
              = ret (CBytes (ensure_bytes nvim_insert "<Insert>")).
Proof.
  split; [reflexivity|]. split; [by vm_compute|].
  intros [fuel H].
  assert (H3 : _resolve_from_special_keys 3 nvim_insert (B "Leader")
               = ret (CBytes (x80 :: B "kI"))) by by vm_compute.
  apply (_resolve_from_special_keys_mono _ _ (fuel `max` 3)) in H; [|lia].
  apply (_resolve_from_special_keys_mono _ _ (fuel `max` 3)) in H3; [|lia].
  rewrite H in H3. vm_compute in H3. discriminate.
Qed.

(** ** The control shortcut *)

(** The shortcut as the code has it: a three-byte name [C-c] whose last
    byte, in upper case, is in [ctrl_chars] gives [c & 0x1f]. *)
Lemma ctrl_shortcut nvim fuel (c0 c1 c : byte) :
  upper [c0; c1] = B "C-" →
  byte_in (byte_upper c) ctrl_chars = true →
  SPECIAL_KEYS !! ensure_str nvim (upper [c0; c1; c]) = None →
  _resolve_from_special_keys (S fuel) nvim [c0; c1; c]
  = ret (CInt (ctrl (ord c))).
Proof.
  intros Hpre Hin Hmiss.
  rewrite _resolve_from_special_keys_unfold Hmiss.
  change (upper [c0; c1; c]) with (upper [c0; c1] ++ [byte_upper c])%list.
  rewrite Hpre.
  change (startswith (B "C-" ++ [byte_upper c]) (B "C-")) with true.
  change (last (B "C-" ++ [byte_upper c])) with (Some (byte_upper c)).
  change (last [c0; c1; c]) with (Some c).
  change (length [c0; c1; c] =? 3)%nat with true.
  cbv [from_option]. by rewrite Hin.
Qed.

(** Every upper-case letter but [J] is in [ctrl_chars]. *)
Lemma ctrl_chars_letters (c : byte) :
  (65 ≤ ord c ≤ 90)%Z → c ≠ "J"%byte → byte_in c ctrl_chars = true.
Proof. destruct c; vm_compute; try done; intros [H1 H2]; by exfalso. Qed.

(** C2, at the letter the shortcut misses: [ctrl_chars] has no [J], so
    [<C-j>] does not give the control code 10 but the control marker
    followed by the byte [j]. *)
Theorem ctrl_j_is_marker_prefixed :
  byte_in "J"%byte ctrl_chars = false
  ∧ ctrl (ord "j"%byte) = 10%Z
  ∧ (∀ fuel, _resolve (4 + fuel) nvim0 (EStr "<C-j>")
             = ret (CBytes (CTRL_KEY ++ B "j")))
  ∧ (∀ fuel, _resolve (3 + fuel) nvim0 (EStr "<C-a>") = ret (CInt 1)).
Proof.
  split; [reflexivity|]. split; [reflexivity|]. split; intros fuel.
  - apply (_resolve_mono _ 4); [lia|]. by vm_compute.
  - apply (_resolve_mono _ 3); [lia|]. by vm_compute.
Qed.

(** ** Failures *)

(** [AttributeError] never comes out of the resolution of a byte
    sequence. *)
Lemma no_attribute_error nvim fuel :
  (∀ b, _resolve fuel nvim (EBytes b) ≠ raise AttributeError)
  ∧ (∀ i, _resolve_from_special_keys fuel nvim i ≠ raise AttributeError).
Proof.
  induction fuel as [|fuel [IHr IHs]]; [by split|].
  assert (Hjoin : ∀ p m, (call rest <- m; join2 p rest) = raise AttributeError
                         → m = raise AttributeError).
  { intros p [[[n|b]|e]|] H; simpl in H; try done. }
  split.
  - intros b. rewrite _resolve_bytes.
    repeat case_match; try done.
    intros Hr. apply (IHs (slice_1_m1 b)).
    destruct (_resolve_from_special_keys fuel nvim (slice_1_m1 b))
      as [[c|e]|]; simpl in Hr; try done.
    by destruct (negb _).
  - intros i. rewrite _resolve_from_special_keys_unfold.
    repeat case_match; try done;
      try (intros Hr; apply Hjoin in Hr; by apply IHs in Hr).
    + unfold getvar. destruct (vars nvim "mapleader"); [apply IHr|done].
    + unfold getvar. destruct (vars nvim "maplocalleader"); [apply IHr|done].
Qed.

(** The first half of C6: at any depth that lets the call end,
    [AttributeError] is raised exactly for an expression that is neither an
    integer, nor a byte sequence, nor a text. *)
Lemma attribute_error_iff nvim fuel e :
  _resolve (S fuel) nvim e = raise AttributeError ↔ ∃ t, e = EOther t.
Proof.
  split.
  - destruct e as [n|b|s|t]; [done| | |by eauto].
    + intros H. by apply no_attribute_error in H.
    + rewrite _resolve_str. intros H. by apply no_attribute_error in H.
  - by intros [t ->].
Qed.

(** C6, at a text that fails otherwise: [<C-CR>] is a text, the leader is
    set, and the call ends with [TypeError], because the name [CR] stands
    for the integer 13 and [join2] takes byte sequences only. *)
Theorem ctrl_cr_raises_type_error :
  SPECIAL_KEYS !! "CR" = Some (CInt 13)
  ∧ join2 CTRL_KEY (CInt 13) = raise TypeError
  ∧ ∀ fuel, _resolve (4 + fuel) nvim0 (EStr "<C-CR>") = raise TypeError.
Proof.
  split; [by vm_compute|]. split; [reflexivity|]. intros fuel.
  apply (_resolve_mono _ 4); [lia|]. by vm_compute.
Qed.

(** ** Resolved codes are fixed points *)

Lemma canonical_fixed nvim fuel c :
  canonical c = true → _resolve (S fuel) nvim (expr_of_code c) = ret c.
Proof.
  destruct c as [n|b]; [done|].
  cbn [canonical expr_of_code]. intros [Hm Hlen]%andb_true_iff.
  apply resolve_marker_unchanged; [done|].
  apply negb_true_iff in Hlen. by apply Nat.eqb_neq.
Qed.

Lemma join2_canonical (p : bytes) (m : M KeyCode) c :
  p = CTRL_KEY ∨ p = META_KEY →
  (call rest <- m; join2 p rest) = ret c → canonical c = true.
Proof.
  intros Hp. destruct m as [[[n|b]|e]|]; simpl; try done.
  intros [= <-]. by destruct Hp as [-> | ->].
Qed.

Lemma bind_ret_inv {A C} (m : M A) (k : A → M C) (r : C) :
  bind m k = ret r → ∃ a, m = ret a ∧ k a = ret r.
Proof. destruct m as [[a|e]|]; simpl; try done. eauto. Qed.

Lemma idempotent_both nvim fuel :
  (∀ e c, _resolve fuel nvim e = ret c →
          _resolve fuel nvim (expr_of_code c) = ret c)
  ∧ (∀ i c, _resolve_from_special_keys fuel nvim i = ret c →
            c = CBytes i ∨ _resolve fuel nvim (expr_of_code c) = ret c).
Proof.
  induction fuel as [|fuel [IHr IHs]]; [by split|].
  split.
  - intros [n|b|s|t] c Hres.
    + by injection Hres as <-.
    + pose proof Hres as Hres0. rewrite _resolve_bytes in Hres.
      destruct (length b =? 1)%nat.
      { destruct b; [done|]. by injection Hres as <-. }
      destruct (startswith b [x80]).
      { by injection Hres as <-. }
      destruct (startswith b (B "<") || endswith b (B ">")).
      2: { by injection Hres as <-. }
      apply bind_ret_inv in Hres as (code & Hcode & Hres).
      destruct (bool_decide (code = CBytes (slice_1_m1 b))) eqn:Hdec;
        simpl in Hres; injection Hres as <-; [done|].
      apply bool_decide_eq_false in Hdec.
      destruct (IHs _ _ Hcode) as [?|Hfix]; [done|].
      by apply (_resolve_mono _ fuel); [lia|].
    + rewrite _resolve_str in Hres. apply IHr in Hres.
      by apply (_resolve_mono _ fuel); [lia|].
    + done.
  - intros i c Hres. rewrite _resolve_from_special_keys_unfold in Hres.
    destruct (SPECIAL_KEYS !! _) as [code|] eqn:Htab.
    { injection Hres as <-. right.
      eapply canonical_fixed, SPECIAL_KEYS_canonical, Htab. }
    destruct (startswith (upper i) (B "C-")).
    { destruct (_ && _).
      - destruct (last i); [|done]. injection Hres as <-. by right.
      - right. eapply canonical_fixed, join2_canonical, Hres. by left. }
    destruct (_ || _).
    { right. eapply canonical_fixed, join2_canonical, Hres. by right. }
    destruct (bool_decide (upper i = B "LEADER")).
    { apply bind_ret_inv in Hres as (leader & _ & Hres). right.
      apply IHr in Hres. by apply (_resolve_mono _ fuel); [lia|]. }
    destruct (bool_decide (upper i = B "LOCALLEADER")).
    { apply bind_ret_inv in Hres as (leader & _ & Hres). right.
      apply IHr in Hres. by apply (_resolve_mono _ fuel); [lia|]. }
    injection Hres as <-. by left.
Qed.

(** C9: with the editor fixed, a code that [_resolve] returns for an
    expression is returned unchanged when it is resolved again. *)
Theorem resolve_idempotent nvim fuel e c :
  _resolve fuel nvim e = ret c →
  _resolve fuel nvim (expr_of_code c) = ret c.
Proof. apply idempotent_both. Qed.

Lemma resolve_idempotent_witness :
  _resolve 3 nvim0 (expr_of_code (CBytes (x80 :: B "kI")))
  = ret (CBytes (x80 :: B "kI")).
Proof.
  apply (resolve_idempotent nvim0 3 (EStr "<Insert>")).
  by vm_compute.
Defined.

(** ** One call of [parse] *)

Lemma parse_cached fuel nvim e st obj :
  cached st !! e = Some obj → parse fuel nvim e st = ret (obj, st).
Proof.
  intros Hc. unfold parse.
  rewrite bool_decide_eq_false_2; [by rewrite Hc|].
  simpl. by rewrite Hc.
Qed.

Lemma parse_fresh fuel nvim e st :
  cached st !! e = None →
  parse fuel nvim e st
  = call c <- _resolve fuel nvim e;
    ret (length (heap st), stored nvim e c st).
Proof.
  intros Hc. unfold parse. rewrite bool_decide_eq_true_2; [done|].
  destruct (_resolve fuel nvim e) as [[c|x]|]; [|done..].
  simpl. rewrite lookup_insert_eq. unfold stored, ret. do 5 f_equal.
  destruct c as [n|b]; [done|]. simpl. by destruct (startswith b [x80]).
Qed.

Lemma parse_inv fuel nvim e st obj st' :
  parse fuel nvim e st = ret (obj, st') →
  (cached st !! e = Some obj ∧ st' = st)
  ∨ (cached st !! e = None
     ∧ ∃ c, _resolve fuel nvim e = ret c
            ∧ obj = length (heap st) ∧ st' = stored nvim e c st).
Proof.
  destruct (cached st !! e) as [o|] eqn:Hc.
  - rewrite (parse_cached _ _ _ _ o) //. intros [= <- <-]. by left.
  - rewrite parse_fresh //. intros (c & Hres & [= <- <-])%bind_ret_inv.
    right. eauto.
Qed.

(** ** What every call keeps *)

Lemma any_step_keeps st st' :
  any_step st st' → wf st →
  wf st'
  ∧ (∀ e obj, cached st !! e = Some obj → cached st' !! e = Some obj)
  ∧ (∀ obj k, heap st !! obj = Some k → heap st' !! obj = Some k).
Proof.
  intros [nvim [fuel e ? obj ? Hp]] Hwf.
  apply parse_inv in Hp as [[_ ->]|(Hc & c & _ & -> & ->)]; [done|].
  split; [|split]; simpl.
  - intros e' obj'. rewrite lookup_insert length_app /=.
    case_decide; [intros [= <-]; lia|]. intros ?%Hwf. lia.
  - intros e' obj' Hc'. rewrite lookup_insert_ne //. congruence.
  - intros obj' k Hk. by apply lookup_app_l_Some.
Qed.

Lemma steps_keep st st' :
  rtc any_step st st' → wf st →
  wf st'
  ∧ (∀ e obj, cached st !! e = Some obj → cached st' !! e = Some obj)
  ∧ (∀ obj k, heap st !! obj = Some k → heap st' !! obj = Some k).
Proof.
  induction 1 as [st|st st1 st2 Hs _ IH]; [done|].
  intros Hwf. destruct (any_step_keeps _ _ Hs Hwf) as (Hwf1 & Hc1 & Hh1).
  destruct (IH Hwf1) as (Hwf2 & Hc2 & Hh2). split; [done|]. split; eauto.
Qed.

Lemma wf_empty : wf empty_state.
Proof. intros e obj. by rewrite lookup_empty. Qed.

Lemma step_coherent nvim st st' :
  step nvim st st' → coherent nvim st → coherent nvim st'.
Proof.
  intros [fuel e ? obj ? Hp] Hco.
  apply parse_inv in Hp as [[_ ->]|(Hc & c & Hres & -> & ->)]; [done|].
  intros e' obj'. simpl. rewrite lookup_insert.
  case_decide as Heq.
  - intros [= <-]. subst e'. exists c, fuel. split; [done|].
    by rewrite lookup_app_r // Nat.sub_diag.
  - intros (c' & fuel' & Hres' & Hk)%Hco. exists c', fuel'.
    split; [done|]. by apply lookup_app_l_Some.
Qed.

Lemma reachable_coherent nvim st : reachable nvim st → coherent nvim st.
Proof.
  assert (∀ a b, rtc (step nvim) a b → coherent nvim a → coherent nvim b)
    as Hall by (induction 1; eauto using step_coherent).
  intros Hr. apply (Hall _ _ Hr).
  intros e obj. by rewrite lookup_empty.
Qed.

(** With the editor fixed, [parse] returns whenever [_resolve] does, and
    the instance it returns holds the resolved code and its printable
    form, whether it was cached or not. *)
Lemma parse_returns nvim st fuel e c :
  reachable nvim st → _resolve fuel nvim e = ret c →
  ∃ obj st', parse fuel nvim e st = ret (obj, st')
             ∧ heap st' !! obj = Some (mkKey c (spec_char nvim c))
             ∧ reachable nvim st'
             ∧ (∀ o k, heap st !! o = Some k → heap st' !! o = Some k).
Proof.
  intros Hreach Hres. destruct (cached st !! e) as [o|] eqn:Hc.
  - exists o, st. split; [by apply parse_cached|].
    destruct (reachable_coherent _ _ Hreach _ _ Hc) as (c' & fuel' & Hres' & Hk).
    assert (c' = c) as -> by (pose proof (_resolve_agree _ _ _ _ _ _ Hres' Hres);
                              congruence).
    done.
  - assert (Hp : parse fuel nvim e st
                 = ret (length (heap st), stored nvim e c st)).
    { rewrite parse_fresh // Hres //. }
    exists (length (heap st)), (stored nvim e c st).
    split; [done|]. split; [|split].
    + simpl. by rewrite lookup_app_r // Nat.sub_diag.
    + eapply rtc_r; [exact Hreach|]. by econstructor.
    + intros o k Hk. simpl. by apply lookup_app_l_Some.
Qed.

(** ** The cache *)

(** C1: once [parse] has returned an instance for an expression, every
    later call with that expression, after any number of other calls and
    with any editor, returns the same address, leaves the state as it is,
    and finds the instance unchanged. *)
Theorem parse_same_instance st nvim fuel e obj st1 st2 nvim' fuel' :
  rtc any_step empty_state st →
  parse fuel nvim e st = ret (obj, st1) →
  rtc any_step st1 st2 →
  parse fuel' nvim' e st2 = ret (obj, st2)
  ∧ cached st2 !! e = Some obj
  ∧ is_Some (heap st1 !! obj)
  ∧ heap st2 !! obj = heap st1 !! obj.
Proof.
  intros Hreach Hp Hsteps.
  destruct (steps_keep _ _ Hreach wf_empty) as (Hwf & _ & _).
  assert (Hstep : any_step st st1) by (exists nvim; by econstructor).
  destruct (any_step_keeps _ _ Hstep Hwf) as (Hwf1 & _ & _).
  assert (Hc1 : cached st1 !! e = Some obj).
  { apply parse_inv in Hp as [[? ->]|(_ & c & _ & -> & ->)]; [done|].
    simpl. by rewrite lookup_insert_eq. }
  destruct (steps_keep _ _ Hsteps Hwf1) as (_ & Hc2 & Hh2).
  destruct (lookup_lt_is_Some_2 (heap st1) obj (Hwf1 _ _ Hc1)) as [k Hk].
  split; [by apply parse_cached, Hc2|]. split; [by apply Hc2|].
  split; [by exists k|]. by rewrite Hk (Hh2 _ _ Hk).
Qed.

Lemma parse_same_instance_witness :
  let st1 := stored nvim0 (EStr "<C-a>") (CInt 1) empty_state in
  let st2 := stored nvim0 (EInt 97) (CInt 97) st1 in
  parse 0 nvim_insert (EStr "<C-a>") st2 = ret (0%nat, st2)
  ∧ cached st2 !! EStr "<C-a>" = Some 0%nat
  ∧ is_Some (heap st1 !! 0%nat)
  ∧ heap st2 !! 0%nat = heap st1 !! 0%nat.
Proof.
  intros st1 st2.
  apply (parse_same_instance empty_state nvim0 3 (EStr "<C-a>") 0 st1 st2
           nvim_insert 0).
  - apply rtc_refl.
  - vm_compute. reflexivity.
  - apply rtc_once. exists nvim0.
    apply (step_parse nvim0 1 (EInt 97) st1 1 st2).
    vm_compute. reflexivity.
Defined.

(** ** The printable form *)

(** C5: with the editor fixed, [parse] returns whenever the expression
    resolves, and the instance it returns has the resolved code and the
    [char] derived from it: the decoded character of an integer code, the
    decoded text of a byte sequence that is not behind the marker 0x80, and
    the empty text behind the marker; so a text of one character that is
    encoded as one byte, which [int2chr] decodes back, has itself as
    [char]. *)
Theorem parse_char_derivation nvim st fuel e :
  reachable nvim st →
  (∀ c, _resolve fuel nvim e = ret c →
        ∃ obj st', parse fuel nvim e st = ret (obj, st'))
  ∧ (∀ obj st', parse fuel nvim e st = ret (obj, st') →
       ∃ k fuel0,
         heap st' !! obj = Some k
         ∧ _resolve fuel0 nvim e = ret (code k)
         ∧ char k = spec_char nvim (code k)
         ∧ (∀ n, code k = CInt n → char k = int2chr nvim n)
         ∧ (∀ b, code k = CBytes b → startswith b [x80] = false →
                 char k = ensure_str nvim b)
         ∧ (∀ b, code k = CBytes b → startswith b [x80] = true →
                 char k = "")
         ∧ (∀ s ch, e = EStr s → ensure_bytes nvim s = [ch] →
                    int2chr nvim (ord ch) = s → char k = s)).
Proof.
  intros Hreach. split.
  - intros c Hres.
    destruct (parse_returns _ _ _ _ _ Hreach Hres) as (obj & st' & Hp & _).
    eauto.
  - intros obj st' Hp.
    assert (∃ c fuel0, _resolve fuel0 nvim e = ret c
                       ∧ heap st' !! obj = Some (mkKey c (spec_char nvim c)))
      as (c & fuel0 & Hres & Hk).
    { apply parse_inv in Hp as [[Hc ->]|(_ & c & Hres & -> & ->)].
      - by apply (reachable_coherent _ _ Hreach).
      - exists c, fuel. split; [done|].
        simpl. by rewrite lookup_app_r // Nat.sub_diag. }
    exists (mkKey c (spec_char nvim c)), fuel0. simpl.
    split; [done|]. split; [done|]. split; [done|].
    split; [by intros n ->|].
    split; [intros b -> Hs; simpl; by rewrite Hs|].
    split; [intros b -> Hs; simpl; by rewrite Hs|].
    intros s ch -> Hb Hch.
    destruct fuel0 as [|[|fuel0]]; try done.
    rewrite _resolve_str Hb in Hres. injection Hres as <-. done.
Qed.

Lemma parse_char_derivation_witness :
  (∀ c, _resolve 2 nvim0 (EStr "a") = ret c →
        ∃ obj st', parse 2 nvim0 (EStr "a") empty_state = ret (obj, st'))
  ∧ (∀ obj st', parse 2 nvim0 (EStr "a") empty_state = ret (obj, st') →
       ∃ k fuel0,
         heap st' !! obj = Some k
         ∧ _resolve fuel0 nvim0 (EStr "a") = ret (code k)
         ∧ char k = spec_char nvim0 (code k)
         ∧ (∀ n, code k = CInt n → char k = int2chr nvim0 n)
         ∧ (∀ b, code k = CBytes b → startswith b [x80] = false →
                 char k = ensure_str nvim0 b)
         ∧ (∀ b, code k = CBytes b → startswith b [x80] = true →
                 char k = "")
         ∧ (∀ s ch, EStr "a" = EStr s → ensure_bytes nvim0 s = [ch] →
                    int2chr nvim0 (ord ch) = s → char k = s)).
Proof.
  apply (parse_char_derivation nvim0 empty_state 2 (EStr "a")).
  apply rtc_refl.
Defined.

(** ** Unknown names *)

Lemma unknown_name_lookup nvim fuel (inner : bytes) :
  unknown_name nvim inner →
  _resolve_from_special_keys (S fuel) nvim inner = ret (CBytes inner).
Proof.
  intros (Htab & Hc & Hm & Ha & Hl & Hll).
  rewrite _resolve_from_special_keys_unfold Htab Hc Hm Ha /=.
  by rewrite !bool_decide_eq_false_2.
Qed.

Lemma resolve_unknown nvim fuel (inner : bytes) :
  unknown_name nvim inner →
  _resolve (S (S fuel)) nvim (EBytes (B "<" ++ inner ++ B ">"))
  = ret (CBytes (B "<" ++ inner ++ B ">")).
Proof.
  intros Hun.
  change (B "<" ++ inner ++ B ">")%list with ("<"%byte :: inner ++ [">"%byte]).
  rewrite _resolve_brackets; [done|by left|].
  rewrite unknown_name_lookup //=. by rewrite bool_decide_eq_true_2.
Qed.

(** C7: with the editor fixed, a text whose encoding is [<], a name and
    [>], where the name is not in the table, carries no modifier prefix and
    is no leader, parses without an error to the instance whose code is the
    whole encoded byte sequence, brackets included, and whose [char] is the
    decoded text of these bytes. *)
Theorem unknown_name_is_literal nvim st fuel s (inner : bytes) :
  reachable nvim st →
  ensure_bytes nvim s = (B "<" ++ inner ++ B ">")%list →
  unknown_name nvim inner →
  (3 ≤ fuel)%nat →
  ∃ obj st',
    parse fuel nvim (EStr s) st = ret (obj, st')
    ∧ heap st' !! obj
      = Some (mkKey (CBytes (ensure_bytes nvim s))
                    (ensure_str nvim (ensure_bytes nvim s))).
Proof.
  intros Hreach Hb Hun Hfuel.
  assert (Hres : _resolve fuel nvim (EStr s)
                 = ret (CBytes (ensure_bytes nvim s))).
  { apply (_resolve_mono _ 3); [done|].
    rewrite _resolve_str Hb. by apply resolve_unknown. }
  destruct (parse_returns _ _ _ _ _ Hreach Hres) as (obj & st' & Hp & Hk & _).
  exists obj, st'. split; [done|]. by rewrite Hk Hb.
Qed.

Lemma unknown_name_is_literal_witness :
  ∃ obj st',
    parse 3 nvim0 (EStr "<Unknown>") empty_state = ret (obj, st')
    ∧ heap st' !! obj = Some (mkKey (CBytes (B "<Unknown>")) "<Unknown>").
Proof.
  apply (unknown_name_is_literal nvim0 empty_state 3 "<Unknown>" (B "Unknown")).
  - apply rtc_refl.
  - reflexivity.
  - repeat split; by vm_compute.
  - lia.
Defined.

(** ** Letter case *)

Lemma byte_upper_marker (c : byte) :
  Byte.eqb (byte_upper c) x80 = Byte.eqb c x80.
Proof. by destruct c. Qed.

Lemma upper_marker (i : bytes) :
  startswith (upper i) [x80] = startswith i [x80].
Proof.
  destruct i as [|c i]; [done|].
  change (upper (c :: i)) with (byte_upper c :: upper i).
  rewrite !startswith_cons1. apply byte_upper_marker.
Qed.

Lemma resolve_special_name nvim fuel name c (inner : bytes) :
  SPECIAL_KEYS !! name = Some c →
  ensure_str nvim (B name) = name →
  upper inner = B name →
  _resolve (S (S fuel)) nvim (EBytes (B "<" ++ inner ++ B ">")) = ret c.
Proof.
  intros Htab Hdec Hup.
  change (B "<" ++ inner ++ B ">")%list with ("<"%byte :: inner ++ [">"%byte]).
  rewrite _resolve_brackets; [done|by left|].
  rewrite _resolve_from_special_keys_unfold Hup Hdec Htab /=.
  rewrite bool_decide_eq_false_2; [|done].
  intros ->. apply SPECIAL_KEYS_canonical in Htab as Hcan.
  apply SPECIAL_KEYS_names_plain in Htab as Hplain.
  rewrite -Hup upper_marker in Hplain.
  simpl in Hcan. by rewrite Hplain in Hcan.
Qed.

(** C8: with the editor fixed, two texts that encode to [<], a name and
    [>], whose names are the same recognised table name up to the case of
    ASCII letters, resolve to the same code, the one of the table, and parse
    to instances with equal fields. *)
Theorem special_key_case_insensitive nvim st fuel name c s1 s2
    (inner1 inner2 : bytes) :
  reachable nvim st →
  SPECIAL_KEYS !! name = Some c →
  ensure_str nvim (B name) = name →
  ensure_bytes nvim s1 = (B "<" ++ inner1 ++ B ">")%list →
  ensure_bytes nvim s2 = (B "<" ++ inner2 ++ B ">")%list →
  upper inner1 = B name →
  upper inner2 = B name →
  (3 ≤ fuel)%nat →
  _resolve fuel nvim (EStr s1) = ret c
  ∧ _resolve fuel nvim (EStr s2) = ret c
  ∧ ∃ obj1 st1 obj2 st2 k,
      parse fuel nvim (EStr s1) st = ret (obj1, st1)
      ∧ parse fuel nvim (EStr s2) st1 = ret (obj2, st2)
      ∧ heap st2 !! obj1 = Some k
      ∧ heap st2 !! obj2 = Some k
      ∧ code k = c.
Proof.
  intros Hreach Htab Hdec Hb1 Hb2 Hup1 Hup2 Hfuel.
  assert (Hres : ∀ s (inner : bytes),
             ensure_bytes nvim s = (B "<" ++ inner ++ B ">")%list →
             upper inner = B name → _resolve fuel nvim (EStr s) = ret c).
  { intros s inner Hb Hup. apply (_resolve_mono _ 3); [done|].
    rewrite _resolve_str Hb. by eapply resolve_special_name. }
  pose proof (Hres _ _ Hb1 Hup1) as Hres1.
  pose proof (Hres _ _ Hb2 Hup2) as Hres2.
  split; [done|]. split; [done|].
  destruct (parse_returns _ _ _ _ _ Hreach Hres1)
    as (obj1 & st1 & Hp1 & Hk1 & Hreach1 & _).
  destruct (parse_returns _ _ _ _ _ Hreach1 Hres2)
    as (obj2 & st2 & Hp2 & Hk2 & _ & Hkeep).
  exists obj1, st1, obj2, st2, (mkKey c (spec_char nvim c)).
  eauto 10.
Qed.

Lemma special_key_case_insensitive_witness :
  _resolve 3 nvim0 (EStr "<insert>") = ret (CBytes (x80 :: B "kI"))
  ∧ _resolve 3 nvim0 (EStr "<INSERT>") = ret (CBytes (x80 :: B "kI"))
  ∧ ∃ obj1 st1 obj2 st2 k,
      parse 3 nvim0 (EStr "<insert>") empty_state = ret (obj1, st1)
      ∧ parse 3 nvim0 (EStr "<INSERT>") st1 = ret (obj2, st2)
      ∧ heap st2 !! obj1 = Some k
      ∧ heap st2 !! obj2 = Some k
      ∧ code k = CBytes (x80 :: B "kI").
Proof.
  apply (special_key_case_insensitive nvim0 empty_state 3 "INSERT"
           (CBytes (x80 :: B "kI")) "<insert>" "<INSERT>"
           (B "insert") (B "INSERT")).
  - apply rtc_refl.
  - by vm_compute.
  - reflexivity.
  - reflexivity.
  - reflexivity.
  - reflexivity.
  - reflexivity.
  - lia.
Defined.


(** * Further properties of the resolver *)

(** ** A single key is never a byte sequence *)

Lemma canonical_not_single c (b : bytes) :
  canonical c = true → c = CBytes b → length b ≠ 1%nat.
Proof.
  intros Hcan ->. simpl in Hcan.
  apply andb_true_iff in Hcan as [_ Hlen].
  apply negb_true_iff in Hlen. by apply Nat.eqb_neq.
Qed.

Lemma never_single_both nvim fuel :
  (∀ e c (b : bytes), _resolve fuel nvim e = ret c →
                      c = CBytes b → length b ≠ 1%nat)
  ∧ (∀ i c (b : bytes), _resolve_from_special_keys fuel nvim i = ret c →
                        c = CBytes b → b = i ∨ length b ≠ 1%nat).
Proof.
  induction fuel as [|fuel [IHr IHs]]; [by split|].
  split.
  - intros [n|b0|s|t] c b Hres Hc; [by simplify_eq| | |done].
    + rewrite _resolve_bytes in Hres.
      destruct (length b0 =? 1)%nat eqn:Hlen.
      { destruct b0; [done|]. by simplify_eq. }
      apply Nat.eqb_neq in Hlen.
      destruct (startswith b0 [x80]); [by simplify_eq|].
      destruct (startswith b0 (B "<") || endswith b0 (B ">"));
        [|by simplify_eq].
      apply bind_ret_inv in Hres as (code & Hcode & Hres).
      destruct (bool_decide (code = CBytes (slice_1_m1 b0))) eqn:Hdec;
        simpl in Hres; [by simplify_eq|].
      apply bool_decide_eq_false in Hdec. injection Hres as <-.
      destruct (IHs _ _ _ Hcode Hc) as [->|?]; [|done]. by subst code.
    + rewrite _resolve_str in Hres. by eapply IHr.
  - intros i c b Hres Hc. rewrite _resolve_from_special_keys_unfold in Hres.
    destruct (SPECIAL_KEYS !! _) as [code|] eqn:Htab.
    { injection Hres as <-. right.
      eapply canonical_not_single; [|done]. by eapply SPECIAL_KEYS_canonical. }
    destruct (startswith (upper i) (B "C-")).
    { destruct (_ && _).
      - destruct (last i); by simplify_eq.
      - right. eapply canonical_not_single; [|done].
        eapply join2_canonical, Hres. by left. }
    destruct (_ || _).
    { right. eapply canonical_not_single; [|done].
      eapply join2_canonical, Hres. by right. }
    destruct (bool_decide (upper i = B "LEADER")).
    { apply bind_ret_inv in Hres as (leader & _ & Hres). right. by eapply IHr. }
    destruct (bool_decide (upper i = B "LOCALLEADER")).
    { apply bind_ret_inv in Hres as (leader & _ & Hres). right. by eapply IHr. }
    left. by simplify_eq.
Qed.

(** X1: whatever the expression and the editor, [_resolve] never returns a
    byte sequence of exactly one byte: a single key always comes back as
    an integer. *)
Theorem resolve_never_single_byte nvim fuel e (b : bytes) :
  _resolve fuel nvim e = ret (CBytes b) → length b ≠ 1%nat.
Proof. intros Hres. by eapply never_single_both. Qed.

Lemma resolve_never_single_byte_witness :
  length (x80 :: B "kI") ≠ 1%nat.
Proof.
  apply (resolve_never_single_byte nvim0 3 (EStr "<Insert>")).
  by vm_compute.
Defined.

(** ** Resolution ends *)

Lemma is_Some_bind_join2 (p : bytes) (m : M KeyCode) :
  is_Some m → is_Some (call rest <- m; join2 p rest).
Proof. intros [[[n|b]|e] ->]; simpl; eauto. Qed.

Lemma startswith2_length (b : bytes) (p0 p1 : byte) :
  startswith b [p0; p1] = true → (2 ≤ length b)%nat.
Proof.
  destruct b as [|x [|y b]]; simpl; try done.
  - by rewrite andb_false_r.
  - intros _. lia.
Qed.

Lemma slice_2_length (b : bytes) : length (slice_2 b) = (length b - 2)%nat.
Proof. apply length_drop. Qed.

Lemma upper_length (b : bytes) : length (upper b) = length b.
Proof. apply length_map. Qed.

(** One call of the lookup ends when its recursive call does. *)
Lemma lookup_step_ends nvim (f0 fuel : nat) (i : bytes) :
  leaders_end nvim f0 → (f0 ≤ fuel)%nat →
  (∀ p0 p1, startswith (upper i) [p0; p1] = true →
            is_Some (_resolve_from_special_keys fuel nvim (slice_2 i))) →
  is_Some (_resolve_from_special_keys (S fuel) nvim i).
Proof.
  intros Hlead Hf0 Hrec.
  assert (Hleader : ∀ var, var = "mapleader" ∨ var = "maplocalleader" →
            is_Some (call leader <- getvar nvim var;
                     _resolve fuel nvim (EBytes (ensure_bytes nvim leader)))).
  { intros var Hvar. unfold getvar.
    destruct (vars nvim var) as [t|] eqn:Hv; simpl; [|by eauto].
    destruct (Hlead var t Hvar Hv) as [r Hr].
    exists r. by apply (_resolve_mono _ f0). }
  rewrite _resolve_from_special_keys_unfold.
  destruct (SPECIAL_KEYS !! _); [by eauto|].
  destruct (startswith (upper i) (B "C-")) eqn:Hc.
  { destruct (_ && _); [destruct (last i); by eauto|].
    apply is_Some_bind_join2. by eapply (Hrec "C"%byte "-"%byte). }
  destruct (startswith (upper i) (B "M-")) eqn:Hm; simpl.
  { apply is_Some_bind_join2. by eapply (Hrec "M"%byte "-"%byte). }
  destruct (startswith (upper i) (B "A-")) eqn:Ha; simpl.
  { apply is_Some_bind_join2. by eapply (Hrec "A"%byte "-"%byte). }
  destruct (bool_decide _); [apply Hleader; by left|].
  destruct (bool_decide _); [apply Hleader; by right|].
  by eauto.
Qed.

Lemma lookup_ends nvim f0 :
  leaders_end nvim f0 →
  ∀ n (i : bytes), (length i ≤ n)%nat →
    is_Some (_resolve_from_special_keys (S n + f0) nvim i).
Proof.
  intros Hlead. induction n as [|n IH]; intros i Hlen.
  - apply (lookup_step_ends nvim f0 (0 + f0)); [done|lia|].
    intros p0 p1 Hp%startswith2_length. rewrite upper_length in Hp. lia.
  - apply (lookup_step_ends nvim f0 (S n + f0)); [done|lia|].
    intros p0 p1 Hp%startswith2_length. rewrite upper_length in Hp.
    apply IH. rewrite slice_2_length. lia.
Qed.

(** X2: when the resolution of every leader that is set ends within depth
    [f0] (so with [f0 = 0] when no leader is set), the resolution of any
    expression ends, with a code or an exception, within a depth of its
    number of bytes plus [f0] plus two: modifier chains recurse no deeper
    than the name is long. *)
Theorem resolve_ends nvim f0 e :
  leaders_end nvim f0 →
  is_Some (_resolve (expr_size nvim e + f0 + 2) nvim e).
Proof.
  intros Hlead.
  assert (Hb : ∀ b : bytes, is_Some (_resolve (length b + f0 + 2) nvim (EBytes b))).
  { intros b. replace (length b + f0 + 2)%nat with (S (S (length b) + f0)) by lia.
    rewrite _resolve_bytes.
    destruct (length b =? 1)%nat; [destruct b; by eauto|].
    destruct (startswith b [x80]); [by eauto|].
    destruct (_ || _); [|by eauto].
    assert (length (slice_1_m1 b) ≤ length b)%nat as Hl.
    { unfold slice_1_m1. destruct b as [|x b]; [done|]. simpl.
      destruct b as [|y b] using rev_ind; [simpl; lia|].
      rewrite removelast_last length_app. lia. }
    destruct (lookup_ends _ _ Hlead _ _ Hl) as [[c|x] ->]; simpl; [|by eauto].
    destruct (negb _); by eauto. }
  destruct e as [n|b|s|t]; cbn [expr_size].
  - replace (0 + f0 + 2)%nat with (S (f0 + 1)) by lia. by eauto.
  - apply Hb.
  - replace (S (length (ensure_bytes nvim s)) + f0 + 2)%nat
      with (S (length (ensure_bytes nvim s) + f0 + 2)) by lia.
    rewrite _resolve_str. apply Hb.
  - replace (0 + f0 + 2)%nat with (S (f0 + 1)) by lia. by eauto.
Qed.

Lemma resolve_ends_witness :
  is_Some (_resolve (expr_size nvim0 (EStr "<C-M-A-x>") + 2 + 2) nvim0
             (EStr "<C-M-A-x>")).
Proof.
  apply (resolve_ends nvim0 2 (EStr "<C-M-A-x>")).
  intros var t Hvar Hv.
  destruct Hvar as [-> | ->]; vm_compute in Hv; [|done].
  injection Hv as <-. vm_compute. by eexists.
Defined.

(** ** A leader that names itself *)

(** X3: when the leader text encodes to [<], a name and [>] and the name
    is [LEADER] in any letter case, resolving the leader never ends,
    whatever the depth: each call of [_resolve] reaches the lookup, which
    reads the variable and calls [_resolve] on the same bytes. *)
Theorem leader_naming_itself_never_ends nvim t (inner : bytes) fuel :
  vars nvim "mapleader" = Some t →
  ensure_bytes nvim t = ("<"%byte :: inner ++ [">"%byte])%list →
  upper inner = B "LEADER" →
  ensure_str nvim (B "LEADER") = "LEADER" →
  _resolve fuel nvim (EBytes (ensure_bytes nvim t)) = None
  ∧ _resolve_from_special_keys fuel nvim inner = None.
Proof.
  intros Hv Hb Hup Hdec. induction fuel as [|fuel [IHr IHs]]; [done|].
  split.
  - rewrite Hb _resolve_brackets; [done|by left|]. by rewrite IHs.
  - rewrite _resolve_from_special_keys_unfold Hup Hdec.
    change (SPECIAL_KEYS !! "LEADER") with (@None KeyCode).
    cbn -[_resolve ensure_bytes]. unfold getvar. rewrite Hv. simpl. apply IHr.
Qed.

Lemma leader_naming_itself_never_ends_witness :
  _resolve 100 (latin1 (Some "<leader>") None)
    (EBytes (ensure_bytes (latin1 (Some "<leader>") None) "<leader>")) = None
  ∧ _resolve_from_special_keys 100 (latin1 (Some "<leader>") None)
      (B "leader") = None.
Proof.
  apply (leader_naming_itself_never_ends (latin1 (Some "<leader>") None)
           "<leader>" (B "leader") 100); reflexivity.
Defined.

(** ** The table as the lookup needs it *)

Lemma SPECIAL_KEYS_entry_ok k c :
  SPECIAL_KEYS !! k = Some c → table_entry_ok k c = true.
Proof.
  revert k c.
  change (map_Forall (λ k c, table_entry_ok k c = true) SPECIAL_KEYS).
  refine (bool_decide_unpack _ _). vm_compute. exact I.
Qed.

(** X7: every entry of [SPECIAL_KEYS] has a name that [bytes.upper] leaves
    as it is, so the upper-cased lookup can reach it, of two characters or
    more and without a modifier prefix, and a code that is an integer from
    0 to 127 or three bytes that begin with the marker 0x80. *)
Theorem SPECIAL_KEYS_well_formed k c :
  SPECIAL_KEYS !! k = Some c →
  upper (B k) = B k
  ∧ (2 ≤ length (B k))%nat
  ∧ startswith (B k) (B "C-") = false
  ∧ startswith (B k) (B "M-") = false
  ∧ startswith (B k) (B "A-") = false
  ∧ match c with
    | CInt n => (0 ≤ n ≤ 127)%Z
    | CBytes b => length b = 3%nat ∧ startswith b [x80] = true
    end.
Proof.
  intros Hok%SPECIAL_KEYS_entry_ok. unfold table_entry_ok in Hok.
  repeat (apply andb_true_iff in Hok as [Hok ?]).
  apply bool_decide_eq_true in Hok.
  repeat match goal with H : negb _ = true |- _ => apply negb_true_iff in H end.
  repeat split; try done.
  - by apply Nat.leb_le.
  - destruct c as [n|b].
    + apply andb_true_iff in H as [?%Z.leb_le ?%Z.leb_le]. lia.
    + apply andb_true_iff in H as [?%Nat.eqb_eq ?]. done.
Qed.

Lemma SPECIAL_KEYS_well_formed_witness :
  upper (B "F10") = B "F10"
  ∧ (2 ≤ length (B "F10"))%nat
  ∧ startswith (B "F10") (B "C-") = false
  ∧ startswith (B "F10") (B "M-") = false
  ∧ startswith (B "F10") (B "A-") = false
  ∧ length (x80 :: B "k;") = 3%nat ∧ startswith (x80 :: B "k;") [x80] = true.
Proof.
  apply (SPECIAL_KEYS_well_formed "F10" (CBytes (x80 :: B "k;"))).
  by vm_compute.
Defined.

(** X6: a name of [curses.ascii.controlnames] stands for its position in
    that list, its ASCII code, except [BS]: the aliases are written last,
    so [BS] is the Backspace key and not the code 8; and every alias has
    the code of the name it copies. *)
Theorem control_names_and_aliases :
  (∀ (i : nat) name, controlnames !! i = Some name →
     SPECIAL_KEYS !! name
     = Some (if bool_decide (name = "BS") then CBytes (x80 :: B "kb")
             else CInt (Z.of_nat i)))
  ∧ (∀ a t, (a, t) ∈ aliases →
       is_Some (SPECIAL_KEYS !! t) ∧ SPECIAL_KEYS !! a = SPECIAL_KEYS !! t).
Proof.
  split.
  - intros i name.
    do 33 (destruct i as [|i]; [intros [= <-]; by vm_compute|]).
    done.
  - intros a t Hin. unfold aliases in Hin.
    repeat (apply elem_of_cons in Hin as [[= -> ->]|Hin];
            [split; [eexists|]; by vm_compute|]).
    by apply elem_of_nil in Hin.
Qed.

Lemma control_names_and_aliases_witness :
  SPECIAL_KEYS !! "CR" = Some (CInt 13)
  ∧ SPECIAL_KEYS !! "BS" = Some (CBytes (x80 :: B "kb"))
  ∧ SPECIAL_KEYS !! "ENTER" = SPECIAL_KEYS !! "CR".
Proof.
  split; [|split].
  - apply (proj1 control_names_and_aliases 13%nat "CR"). reflexivity.
  - apply (proj1 control_names_and_aliases 8%nat "BS"). reflexivity.
  - apply (proj2 control_names_and_aliases "ENTER" "CR").
    unfold aliases. do 2 apply list_elem_of_further. apply list_elem_of_here.
Defined.

(** ** Modifiers *)

Lemma startswith_nil (b : bytes) : startswith b [] = true.
Proof. by destruct b. Qed.

Lemma startswith_cons (x p : byte) (b ps : bytes) :
  startswith (x :: b) (p :: ps) = Byte.eqb x p && startswith b ps.
Proof. done. Qed.

Lemma upper_app (a b : bytes) : upper (a ++ b) = (upper a ++ upper b)%list.
Proof. apply map_app. Qed.

Lemma modifiers_cases pre marker :
  (pre, marker) ∈ modifiers →
  (pre = "C-" ∧ marker = CTRL_KEY)
  ∨ (pre = "M-" ∧ marker = META_KEY)
  ∨ (pre = "A-" ∧ marker = META_KEY).
Proof.
  unfold modifiers. rewrite !elem_of_cons elem_of_nil.
  intros [[= -> ->]|[[= -> ->]|[[= -> ->]|[]]]]; eauto.
Qed.

Lemma no_modified_name_in_table pre marker name :
  (pre, marker) ∈ modifiers → SPECIAL_KEYS !! (pre ++ name) = None.
Proof.
  intros Hin. destruct (SPECIAL_KEYS !! (pre ++ name)) as [c|] eqn:Htab; [|done].
  apply SPECIAL_KEYS_entry_ok in Htab. unfold table_entry_ok in Htab.
  repeat (apply andb_true_iff in Htab as [Htab ?]).
  repeat match goal with H : negb _ = true |- _ => apply negb_true_iff in H end.
  destruct (modifiers_cases _ _ Hin) as [[-> _]|[[-> _]|[-> _]]].
  - change (B ("C-" ++ name)) with ("C"%byte :: "-"%byte :: B name) in *.
    by destruct (B name).
  - change (B ("M-" ++ name)) with ("M"%byte :: "-"%byte :: B name) in *.
    by destruct (B name).
  - change (B ("A-" ++ name)) with ("A"%byte :: "-"%byte :: B name) in *.
    by destruct (B name).
Qed.

(** The lookup of a modifier prefix followed by a table name. *)
Lemma lookup_modified_name nvim fuel pre marker name c (p inner : bytes) :
  (pre, marker) ∈ modifiers →
  SPECIAL_KEYS !! name = Some c →
  ensure_str nvim (B name) = name →
  ensure_str nvim (B (pre ++ name)) = pre ++ name →
  upper p = B pre → upper inner = B name →
  slice_2 (p ++ inner) = inner
  ∧ startswith (p ++ inner) [x80] = false
  ∧ _resolve_from_special_keys (S (S fuel)) nvim (p ++ inner) = join2 marker c.
Proof.
  intros Hin Htab Hdec Hdec2 Hp Hi.
  pose proof (no_modified_name_in_table _ _ name Hin) as Hmiss.
  pose proof (SPECIAL_KEYS_entry_ok _ _ Htab) as Hok.
  assert (Hlen : (2 ≤ length inner)%nat).
  { unfold table_entry_ok in Hok.
    repeat (apply andb_true_iff in Hok as [Hok ?]).
    rewrite -(upper_length inner) Hi. by apply Nat.leb_le. }
  assert (Hinner : _resolve_from_special_keys (S fuel) nvim inner = ret c).
  { by rewrite _resolve_from_special_keys_unfold Hi Hdec Htab. }
  assert (Hp2 : ∃ p0 p1, p = [p0; p1]).
  { assert (length p = 2%nat) as Hl.
    { rewrite -(upper_length p) Hp.
      by destruct (modifiers_cases _ _ Hin) as [[-> _]|[[-> _]|[-> _]]]. }
    destruct p as [|p0 [|p1 [|? ?]]]; try done. eauto. }
  destruct Hp2 as (p0 & p1 & ->).
  split; [done|].
  split.
  { rewrite -upper_marker upper_app Hp.
    by destruct (modifiers_cases _ _ Hin) as [[-> _]|[[-> _]|[-> _]]]. }
  rewrite _resolve_from_special_keys_unfold upper_app Hp Hi.
  assert (Hup : (B pre ++ B name)%list = B (pre ++ name)).
  { by destruct (modifiers_cases _ _ Hin) as [[-> _]|[[-> _]|[-> _]]]. }
  rewrite Hup Hdec2 Hmiss -Hup.
  assert (Hl3 : (length ([p0; p1] ++ inner) =? 3)%nat = false).
  { apply Nat.eqb_neq. rewrite length_app /=. lia. }
  rewrite Hl3.
  change (slice_2 ([p0; p1] ++ inner)) with inner. rewrite Hinner.
  change (B "C-") with ["C"%byte; "-"%byte].
  change (B "M-") with ["M"%byte; "-"%byte].
  change (B "A-") with ["A"%byte; "-"%byte].
  destruct (modifiers_cases _ _ Hin) as [[-> ->]|[[-> ->]|[-> ->]]].
  - change (B "C-" ++ B name)%list with ("C"%byte :: "-"%byte :: B name).
    by rewrite !startswith_cons !startswith_nil.
  - change (B "M-" ++ B name)%list with ("M"%byte :: "-"%byte :: B name).
    by rewrite !startswith_cons !startswith_nil.
  - change (B "A-" ++ B name)%list with ("A"%byte :: "-"%byte :: B name).
    by rewrite !startswith_cons !startswith_nil.
Qed.

(** X4: for a text that encodes to [<], a modifier prefix [C-], [M-] or
    [A-] in any letter case, a name of the table in any letter case and
    [>], [_resolve] joins the marker of the modifier and the code of the
    name: the marker followed by the three bytes of a special key, and
    [TypeError] when the name stands for an integer. *)
Theorem resolve_modified_name nvim fuel pre marker name c s (p inner : bytes) :
  (pre, marker) ∈ modifiers →
  SPECIAL_KEYS !! name = Some c →
  ensure_str nvim (B name) = name →
  ensure_str nvim (B (pre ++ name)) = pre ++ name →
  ensure_bytes nvim s = ("<"%byte :: (p ++ inner) ++ [">"%byte])%list →
  upper p = B pre → upper inner = B name →
  _resolve (4 + fuel) nvim (EStr s) = join2 marker c
  ∧ (∀ n, c = CInt n → _resolve (4 + fuel) nvim (EStr s) = raise TypeError)
  ∧ (∀ b, c = CBytes b →
          _resolve (4 + fuel) nvim (EStr s) = ret (CBytes (marker ++ b))).
Proof.
  intros Hin Htab Hdec Hdec2 Hb Hp Hi.
  destruct (lookup_modified_name nvim fuel _ _ _ _ _ _ Hin Htab Hdec Hdec2 Hp Hi)
    as (_ & Hm & Hlook).
  assert (Hres : _resolve (4 + fuel) nvim (EStr s) = join2 marker c).
  { change (4 + fuel)%nat with (S (S (S (S fuel)))).
    rewrite _resolve_str Hb _resolve_brackets; [done|by left|].
    rewrite Hlook. destruct c as [n|b]; [done|]. simpl.
    rewrite bool_decide_eq_false_2; [|done].
    intros [= Heq]. rewrite -Heq in Hm.
    by destruct (modifiers_cases _ _ Hin) as [[_ ->]|[[_ ->]|[_ ->]]]. }
  split; [done|]. rewrite Hres. split; by intros ? ->.
Qed.

Lemma resolve_modified_name_witness :
  _resolve (4 + 0) nvim0 (EStr "<c-Insert>")
  = join2 CTRL_KEY (CBytes (x80 :: B "kI"))
  ∧ (∀ n, CBytes (x80 :: B "kI") = CInt n →
          _resolve (4 + 0) nvim0 (EStr "<c-Insert>") = raise TypeError)
  ∧ (∀ b, CBytes (x80 :: B "kI") = CBytes b →
          _resolve (4 + 0) nvim0 (EStr "<c-Insert>")
          = ret (CBytes (CTRL_KEY ++ b))).
Proof.
  apply (resolve_modified_name nvim0 0 "C-" CTRL_KEY "INSERT"
           (CBytes (x80 :: B "kI")) "<c-Insert>" (B "c-") (B "Insert")).
  - apply list_elem_of_here.
  - by vm_compute.
  - reflexivity.
  - reflexivity.
  - reflexivity.
  - reflexivity.
  - reflexivity.
Defined.

(** ** The code of the control shortcut *)

Lemma ctrl_byte_facts (c : byte) :
  (0 ≤ ctrl (ord c) ≤ 31)%Z
  ∧ ctrl (ord c) = ctrl (ord (byte_upper c))
  ∧ ((65 ≤ ord (byte_upper c) ≤ 90)%Z →
     ctrl (ord c) = (ord (byte_upper c) - 64)%Z).
Proof.
  destruct c; vm_compute; (split; [split; congruence|]); split; try done;
    intros [H1 H2]; try done; by exfalso.
Qed.

(** X5: the control shortcut gives a code from 0 to 31 that is the same for
    a character and its upper case, so [<C-a>] and [<C-A>] agree, and for a
    letter it is the position of the letter in the alphabet. *)
Theorem ctrl_shortcut_code nvim fuel (c0 c1 c : byte) :
  upper [c0; c1] = B "C-" →
  byte_in (byte_upper c) ctrl_chars = true →
  SPECIAL_KEYS !! ensure_str nvim (upper [c0; c1; c]) = None →
  ∃ n, _resolve_from_special_keys (S fuel) nvim [c0; c1; c] = ret (CInt n)
       ∧ (0 ≤ n ≤ 31)%Z
       ∧ n = ctrl (ord (byte_upper c))
       ∧ ((65 ≤ ord (byte_upper c) ≤ 90)%Z → n = (ord (byte_upper c) - 64)%Z).
Proof.
  intros Hpre Hin Hmiss. exists (ctrl (ord c)).
  split; [by apply ctrl_shortcut|]. apply ctrl_byte_facts.
Qed.

Lemma ctrl_shortcut_code_witness :
  ∃ n, _resolve_from_special_keys 1 nvim0 (B "c-z") = ret (CInt n)
       ∧ (0 ≤ n ≤ 31)%Z
       ∧ n = ctrl (ord "Z"%byte)
       ∧ ((65 ≤ ord "Z"%byte ≤ 90)%Z → n = (ord "Z"%byte - 64)%Z).
Proof.
  apply (ctrl_shortcut_code nvim0 0 "c"%byte "-"%byte "z"%byte).
  - reflexivity.
  - reflexivity.
  - by vm_compute.
Defined.

(** ** A leader of one byte, and no leader *)

(** X14: for a text that encodes to [<], the name [LEADER] or
    [LOCALLEADER] in any letter case and [>], [_resolve] raises [KeyError]
    when the editor variable is not set, and returns the ordinal of the
    byte when the leader text encodes to a single byte. *)
Theorem leader_unset_or_one_byte nvim fuel name var s (inner : bytes) :
  (name = "LEADER" ∧ var = "mapleader")
  ∨ (name = "LOCALLEADER" ∧ var = "maplocalleader") →
  ensure_str nvim (B name) = name →
  ensure_bytes nvim s = ("<"%byte :: inner ++ [">"%byte])%list →
  upper inner = B name →
  (vars nvim var = None → _resolve (4 + fuel) nvim (EStr s) = raise KeyError)
  ∧ (∀ t c, vars nvim var = Some t → ensure_bytes nvim t = [c] →
            _resolve (4 + fuel) nvim (EStr s) = ret (CInt (ord c))).
Proof.
  intros Hname Hdec Hb Hup.
  assert (Hlook : _resolve_from_special_keys (S (S fuel)) nvim inner
                  = call leader <- getvar nvim var;
                    _resolve (S fuel) nvim (EBytes (ensure_bytes nvim leader))).
  { rewrite _resolve_from_special_keys_unfold Hup Hdec.
    by destruct Hname as [[-> ->]|[-> ->]]. }
  change (4 + fuel)%nat with (S (S (S (S fuel)))).
  rewrite _resolve_str Hb _resolve_brackets; [done|by left|].
  rewrite Hlook. unfold getvar. split.
  - by intros ->.
  - intros t c -> Ht. simpl. by rewrite Ht.
Qed.

Lemma leader_unset_or_one_byte_witness :
  (vars nvim0 "mapleader" = None →
   _resolve (4 + 0) nvim0 (EStr "<Leader>") = raise KeyError)
  ∧ (∀ t c, vars nvim0 "mapleader" = Some t → ensure_bytes nvim0 t = [c] →
            _resolve (4 + 0) nvim0 (EStr "<Leader>") = ret (CInt (ord c))).
Proof.
  apply (leader_unset_or_one_byte nvim0 0 "LEADER" "mapleader" "<Leader>"
           (B "Leader")).
  - left. split; reflexivity.
  - reflexivity.
  - reflexivity.
  - reflexivity.
Defined.

(** * Further properties of the cache *)

Lemma parse_caches fuel nvim e st obj st' :
  parse fuel nvim e st = ret (obj, st') → cached st' !! e = Some obj.
Proof.
  intros [[? ->]|(_ & c & _ & -> & ->)]%parse_inv; [done|].
  simpl. by rewrite lookup_insert_eq.
Qed.

Lemma reachable_any nvim st : reachable nvim st → rtc any_step empty_state st.
Proof.
  unfold reachable. induction 1 as [|st1 st2 st3 Hs _ IH]; [done|].
  eapply rtc_l; [|exact IH]. by exists nvim.
Qed.

Lemma one_instance_step st st' :
  any_step st st' → one_instance_each st → one_instance_each st'.
Proof.
  intros Hstep (Hwf & Hsize & Hinj).
  split; [by apply (any_step_keeps _ _ Hstep)|].
  revert Hwf Hsize Hinj.
  destruct Hstep as [nvim [fuel e ? obj ? Hp]]. intros Hwf Hsize Hinj.
  apply parse_inv in Hp as [[_ ->]|(Hc & c & _ & -> & ->)]; [by split|].
  simpl. split.
  - rewrite map_size_insert_None // length_app /= Hsize. lia.
  - intros e1 e2 o. rewrite !lookup_insert.
    repeat case_decide; subst.
    + done.
    + intros [= <-] Hlt%Hwf. lia.
    + intros Hlt%Hwf [= <-]. lia.
    + apply Hinj.
Qed.

Lemma one_instance_reachable st :
  rtc any_step empty_state st → one_instance_each st.
Proof.
  assert (∀ a b, rtc any_step a b → one_instance_each a → one_instance_each b)
    as Hall by (induction 1; eauto using one_instance_step).
  intros Hreach. apply (Hall _ _ Hreach).
  split; [apply wf_empty|]. split; [done|].
  intros e1 e2 obj. by rewrite lookup_empty.
Qed.

(** X8: in every state that calls of [parse] reach from the empty cache,
    whatever the editors, the cache holds as many expressions as instances
    were created, every cached address is the address of an instance, and
    no two expressions share an instance. *)
Theorem cache_one_instance_per_expression st :
  rtc any_step empty_state st →
  size (cached st) = length (heap st)
  ∧ (∀ e obj, cached st !! e = Some obj → is_Some (heap st !! obj))
  ∧ (∀ e1 e2 obj, cached st !! e1 = Some obj → cached st !! e2 = Some obj →
                  e1 = e2).
Proof.
  intros (Hwf & Hsize & Hinj)%one_instance_reachable.
  split; [done|]. split; [|done].
  intros e obj Hc. by apply lookup_lt_is_Some_2, (Hwf e).
Qed.

Lemma cache_one_instance_per_expression_witness :
  let st := stored nvim0 (EInt 97) (CInt 97) empty_state in
  size (cached st) = length (heap st)
  ∧ (∀ e obj, cached st !! e = Some obj → is_Some (heap st !! obj))
  ∧ (∀ e1 e2 obj, cached st !! e1 = Some obj → cached st !! e2 = Some obj →
                  e1 = e2).
Proof.
  intros st. apply (cache_one_instance_per_expression st).
  apply rtc_once. exists nvim0.
  apply (step_parse nvim0 1 (EInt 97) empty_state 0%nat st).
  vm_compute. reflexivity.
Defined.

(** X9: with the editor fixed, two different expressions that resolve to
    the same code, such as a text and its encoding or two spellings of one
    name, parse to two instances at different addresses with the same
    code and the same [char]: the cache is keyed by the expression, not by
    the code. *)
Theorem equal_keys_distinct_instances nvim st fuel e1 e2 c :
  reachable nvim st →
  e1 ≠ e2 →
  _resolve fuel nvim e1 = ret c →
  _resolve fuel nvim e2 = ret c →
  ∃ obj1 st1 obj2 st2,
    parse fuel nvim e1 st = ret (obj1, st1)
    ∧ parse fuel nvim e2 st1 = ret (obj2, st2)
    ∧ obj1 ≠ obj2
    ∧ heap st2 !! obj1 = Some (mkKey c (spec_char nvim c))
    ∧ heap st2 !! obj2 = Some (mkKey c (spec_char nvim c)).
Proof.
  intros Hreach Hne Hres1 Hres2.
  destruct (parse_returns _ _ _ _ _ Hreach Hres1)
    as (obj1 & st1 & Hp1 & Hk1 & Hreach1 & _).
  destruct (parse_returns _ _ _ _ _ Hreach1 Hres2)
    as (obj2 & st2 & Hp2 & Hk2 & Hreach2 & Hkeep).
  exists obj1, st1, obj2, st2.
  split; [done|]. split; [done|]. split; [|by eauto].
  intros ->.
  destruct (one_instance_reachable _ (reachable_any _ _ Hreach2))
    as (_ & _ & Hinj).
  apply Hne, (Hinj _ _ obj2); [|by eapply parse_caches].
  assert (Hstep : any_step st1 st2) by (exists nvim; by econstructor).
  assert (Hwf1 : wf st1).
  { by apply (steps_keep _ _ (reachable_any _ _ Hreach1) wf_empty). }
  apply (any_step_keeps _ _ Hstep Hwf1). by eapply parse_caches.
Qed.

Lemma equal_keys_distinct_instances_witness :
  ∃ obj1 st1 obj2 st2,
    parse 3 nvim0 (EStr "<CR>") empty_state = ret (obj1, st1)
    ∧ parse 3 nvim0 (EBytes (B "<CR>")) st1 = ret (obj2, st2)
    ∧ obj1 ≠ obj2
    ∧ heap st2 !! obj1 = Some (mkKey (CInt 13) (spec_char nvim0 (CInt 13)))
    ∧ heap st2 !! obj2 = Some (mkKey (CInt 13) (spec_char nvim0 (CInt 13))).
Proof.
  apply (equal_keys_distinct_instances nvim0 empty_state 3
           (EStr "<CR>") (EBytes (B "<CR>")) (CInt 13)).
  - apply rtc_refl.
  - discriminate.
  - by vm_compute.
  - by vm_compute.
Defined.

(** X10: with the editor fixed, parsing the code of a parsed key gives a
    key with the same code and the same [char]: a [Key] can be rebuilt from
    its [code]. *)
Theorem parse_code_of_parsed_key nvim st fuel e c :
  reachable nvim st →
  _resolve fuel nvim e = ret c →
  ∃ obj st1 obj' st2 k,
    parse fuel nvim e st = ret (obj, st1)
    ∧ heap st1 !! obj = Some k
    ∧ code k = c
    ∧ parse fuel nvim (expr_of_code (code k)) st1 = ret (obj', st2)
    ∧ heap st2 !! obj' = Some k.
Proof.
  intros Hreach Hres.
  destruct (parse_returns _ _ _ _ _ Hreach Hres)
    as (obj & st1 & Hp & Hk & Hreach1 & _).
  pose proof (proj1 (idempotent_both nvim fuel) _ _ Hres) as Hfix.
  destruct (parse_returns _ _ _ _ _ Hreach1 Hfix)
    as (obj' & st2 & Hp' & Hk' & _).
  exists obj, st1, obj', st2, (mkKey c (spec_char nvim c)). eauto 10.
Qed.

Lemma parse_code_of_parsed_key_witness :
  ∃ obj st1 obj' st2 k,
    parse 4 nvim0 (EStr "<M-Up>") empty_state = ret (obj, st1)
    ∧ heap st1 !! obj = Some k
    ∧ code k = CBytes (META_KEY ++ x80 :: B "ku")
    ∧ parse 4 nvim0 (expr_of_code (code k)) st1 = ret (obj', st2)
    ∧ heap st2 !! obj' = Some k.
Proof.
  apply (parse_code_of_parsed_key nvim0 empty_state 4 (EStr "<M-Up>")
           (CBytes (META_KEY ++ x80 :: B "ku"))).
  - apply rtc_refl.
  - by vm_compute.
Defined.

(** * The context of a prompt *)

Lemma slot_step k v (context : Context) :
  (if bool_decide (k ∈ slots) then setattr context k v else ret context)
  = if bool_decide (k = "text") then
      ret (mkContext (Some v) (caret_locus context))
    else if bool_decide (k = "caret_locus") then
      ret (mkContext (text context) (Some v))
    else ret context.
Proof.
  unfold setattr, slots.
  destruct (bool_decide (k = "text")) eqn:Ht.
  { apply bool_decide_eq_true in Ht as ->.
    rewrite bool_decide_eq_true_2; [apply list_elem_of_here|done]. }
  destruct (bool_decide (k = "caret_locus")) eqn:Hc.
  { apply bool_decide_eq_true in Hc as ->.
    rewrite bool_decide_eq_true_2;
      [apply list_elem_of_further, list_elem_of_here|done]. }
  apply bool_decide_eq_false in Ht, Hc.
  rewrite bool_decide_eq_false_2; [|done].
  rewrite !elem_of_cons elem_of_nil. by intros [?|[?|[]]].
Qed.

Lemma to_dict_cases (self : Context) :
  to_dict self
  = match text self, caret_locus self with
    | Some t, Some c => ret (<["caret_locus" := c]> (<["text" := t]> ∅))
    | _, _ => raise AttributeError
    end.
Proof. destruct self as [[t|] [c|]]; reflexivity. Qed.

Lemma from_dict_lookup (d : gmap string value) :
  from_dict d = ret (mkContext (d !! "text") (d !! "caret_locus")).
Proof.
  unfold from_dict.
  induction d as [|k v d Hk Hfirst IH] using map_first_key_ind.
  { by rewrite map_fold_empty. }
  rewrite map_fold_insert_first_key // IH /= slot_step.
  repeat case_bool_decide; subst; simpl.
  - by rewrite lookup_insert_eq lookup_insert_ne.
  - by rewrite lookup_insert_eq lookup_insert_ne.
  - by rewrite !lookup_insert_ne.
Qed.

(** X11: [from_dict] never raises and builds the context whose slots are
    what the dictionary holds under [text] and [caret_locus]: a key outside
    the slots changes nothing, and a slot whose key is missing stays unset,
    since [__init__] is not run. *)
Theorem from_dict_takes_the_slots (d : gmap string value) :
  from_dict d = ret (mkContext (d !! "text") (d !! "caret_locus"))
  ∧ (∀ k v, k ∉ slots → from_dict (<[k := v]> d) = from_dict d)
  ∧ from_dict ∅ = ret Context_new.
Proof.
  split; [apply from_dict_lookup|]. split; [|apply from_dict_lookup].
  intros k v Hk. rewrite !from_dict_lookup.
  rewrite !lookup_insert_ne //; intros ->; apply Hk; unfold slots.
  - apply list_elem_of_here.
  - apply list_elem_of_further, list_elem_of_here.
Qed.

Lemma from_dict_takes_the_slots_witness :
  from_dict (<["history" := VObj 7]> {[ "text" := VStr "abc" ]})
  = from_dict {[ "text" := VStr "abc" ]}.
Proof.
  apply (proj1 (proj2 (from_dict_takes_the_slots {[ "text" := VStr "abc" ]}))).
  unfold slots. rewrite !elem_of_cons elem_of_nil. by intros [?|[?|[]]].
Defined.

(** X12: a dictionary that [to_dict] returns gives the same context back
    through [from_dict]. *)
Theorem to_dict_from_dict (self : Context) (d : gmap string value) :
  to_dict self = ret d → from_dict d = ret self.
Proof.
  rewrite to_dict_cases. destruct self as [[t|] [c|]]; simpl; try done.
  intros [= <-]. rewrite from_dict_lookup.
  by rewrite lookup_insert_ne // !lookup_insert_eq.
Qed.

Lemma to_dict_from_dict_witness :
  from_dict (<["caret_locus" := VInt 0]> (<["text" := VStr ""]> ∅))
  = ret Context_init.
Proof.
  apply (to_dict_from_dict Context_init). reflexivity.
Defined.

(** X13: [to_dict] after [from_dict] gives the dictionary cut down to the
    two slots when it has both keys, and raises [AttributeError] as soon as
    one of [text] and [caret_locus] is missing. *)
Theorem from_dict_to_dict (d : gmap string value) :
  (call context <- from_dict d; to_dict context)
  = match d !! "text", d !! "caret_locus" with
    | Some t, Some c => ret (<["caret_locus" := c]> (<["text" := t]> ∅))
    | _, _ => raise AttributeError
    end.
Proof.
  rewrite from_dict_lookup /= to_dict_cases //.
Qed.
